(** * enmime: header reading and RFC 2047 header decoding

    A shallow embedding of [header.go] (readHeader, decodeHeader,
    decodeToUTF8Base64Header, isWhiteSpaceRune) and of the MIMEError type,
    together with the parts of Go's standard library these functions call
    (strings, encoding/base64, unicode/utf8, mime, bufio, net/textproto).

    Go strings are immutable byte sequences: they are modelled by [string],
    one [ascii] per byte.  A Go index result of -1 ("not found") is [None]. *)

From Stdlib Require Import NArith Ascii.
From stdpp Require Import gmap strings list.

Local Open Scope N_scope.
Local Open Scope nat_scope.

(** ** Bytes *)

Definition TAB : ascii := "009"%char.
Definition LF : ascii := "010"%char.
Definition CR : ascii := "013"%char.
Definition SP : ascii := " "%char.

Definition byte_of (c : ascii) : N := N_of_ascii c.
Definition of_byte (n : N) : ascii := ascii_of_N n.

(** [lo <= c <= hi] on bytes, as in Go's [lo <= c && c <= hi]. *)
Definition between (lo hi c : ascii) : bool :=
  (byte_of lo <=? byte_of c)%N && (byte_of c <=? byte_of hi)%N.

Definition str1 (c : ascii) : string := String c "".

(** ** Go's [strings] package (the functions header.go and mime use) *)

Module go_strings.

(** len(s) *)
Definition len (s : string) : nat := String.length s.

(** s[n:] *)
Fixpoint from (n : nat) (s : string) : string :=
  match n, s with
  | S n', String _ s' => from n' s'
  | _, _ => s
  end.

(** s[:n] *)
Fixpoint upto (n : nat) (s : string) : string :=
  match n, s with
  | S n', String c s' => String c (upto n' s')
  | _, _ => ""
  end.

(** s[i], defined for i < len(s) (Go panics otherwise). *)
Fixpoint at_ (i : nat) (s : string) : option ascii :=
  match s, i with
  | "", _ => None
  | String c _, 0 => Some c
  | String _ s', S i' => at_ i' s'
  end.

Fixpoint HasPrefix (s prefix : string) {struct prefix} : bool :=
  match prefix, s with
  | "", _ => true
  | String p prefix', String c s' =>
      if Ascii.eqb c p then HasPrefix s' prefix' else false
  | String _ _, "" => false
  end.

(** strings.Index: the position of the first occurrence of [substr] in
    [s]; Go's -1 is [None]. *)
Fixpoint Index (s substr : string) : option nat :=
  if HasPrefix s substr then Some 0
  else match s with
       | "" => None
       | String _ s' => S <$> Index s' substr
       end.

Definition Contains (s substr : string) : bool :=
  match Index s substr with Some _ => true | None => false end.

Fixpoint IndexByte (s : string) (c : ascii) : option nat :=
  match s with
  | "" => None
  | String d s' => if Ascii.eqb d c then Some 0 else S <$> IndexByte s' c
  end.

(** strings.Join *)
Fixpoint Join (elems : list string) (sep : string) : string :=
  match elems with
  | [] => ""
  | [e] => e
  | e :: rest => e +:+ sep +:+ Join rest sep
  end.

(** strings.FieldsFunc for a predicate that is false on every byte
    >= 0x80.  Go iterates over runes; every byte of a multi-byte rune (and
    every invalid byte, read as U+FFFD) is >= 0x80, so for such a
    predicate the fields are the maximal runs of bytes on which [f] is
    false.  [cur] is the field being read (Go's [start >= 0]), [None] when
    the scan is between fields (Go's [start < 0]). *)
Fixpoint fields_go (f : ascii -> bool) (cur : option string) (s : string)
  : list string :=
  match s with
  | "" => option_list cur
  | String c s' =>
      if f c then option_list cur ++ fields_go f None s'
      else fields_go f (Some (default "" cur +:+ str1 c)) s'
  end.

Definition FieldsFunc (s : string) (f : ascii -> bool) : list string :=
  fields_go f None s.

Fixpoint all (f : ascii -> bool) (s : string) : bool :=
  match s with
  | "" => true
  | String c s' => f c && all f s'
  end.

Definition isASCII (s : string) : bool :=
  all (fun c => (byte_of c <? 128)%N) s.

Definition lowerByte (c : ascii) : ascii :=
  if between "A" "Z" c then of_byte (byte_of c + 32) else c.

Fixpoint mapBytes (f : ascii -> ascii) (s : string) : string :=
  match s with
  | "" => ""
  | String c s' => String (f c) (mapBytes f s')
  end.

(** s[len(s)-1], defined for a string that is not empty. *)
Fixpoint lastByte (s : string) : option ascii :=
  match s with
  | "" => None
  | String c "" => Some c
  | String _ s' => lastByte s'
  end.

End go_strings.

(** ** Go's [encoding/base64]: StdEncoding (padded, not strict) *)

Module go_base64.

Definition encodeStd : string :=
  "ABCDEFGHIJKLMNOPQRSTUVWXYZabcdefghijklmnopqrstuvwxyz0123456789+/".

(** The alphabet character of a 6-bit value. *)
Definition enc6 (v : N) : ascii :=
  default "="%char (go_strings.at_ (N.to_nat v) encodeStd).

(** decodeMap: the 6-bit value of an alphabet character; Go's 0xff is
    [None]. *)
Definition decodeMap (c : ascii) : option N :=
  if between "A" "Z" c then Some (byte_of c - 65)%N
  else if between "a" "z" c then Some (byte_of c - 71)%N
  else if between "0" "9" c then Some (byte_of c + 4)%N
  else if Ascii.eqb c "+" then Some 62%N
  else if Ascii.eqb c "/" then Some 63%N
  else None.

Definition isNL (c : ascii) : bool := Ascii.eqb c LF || Ascii.eqb c CR.

(** "skip over newlines" *)
Fixpoint skipNL (s : string) : string :=
  match s with
  | String c s' => if isNL c then skipNL s' else s
  | "" => ""
  end.

(** The [dlen - 1] bytes of a quantum of [dlen] 6-bit values
    (missing values are 0). *)
Definition quantum (dbuf : list N) (dlen : nat) : string :=
  let d i := default 0%N (dbuf !! i) in
  let val := N.lor (N.lor (N.shiftl (d 0) 18) (N.shiftl (d 1) 12))
                   (N.lor (N.shiftl (d 2) 6) (d 3)) in
  let b sh := of_byte (N.land (N.shiftr val sh) 255) in
  go_strings.upto (dlen - 1) (String (b 16%N) (String (b 8%N) (str1 (b 0%N)))).

(** Decode: quantum after quantum (decodeQuantum).  [dbuf] holds the
    values read in the current quantum ([j] is its length); CR and LF are
    skipped everywhere; padding is accepted only to complete the last
    quantum and nothing but newlines may follow it; input that ends inside
    a quantum is corrupt. *)
Fixpoint decodeLoop (src : string) (dbuf : list N) : option string :=
  match src with
  | "" => match dbuf with [] => Some "" | _ => None end
  | String c src' =>
      match decodeMap c with
      | Some v =>
          let d := dbuf ++ [v] in
          if length d =? 4
          then (fun r => quantum d 4 +:+ r) <$> decodeLoop src' []
          else decodeLoop src' d
      | None =>
          if isNL c then decodeLoop src' dbuf
          else if negb (Ascii.eqb c "=") then None
          else match length dbuf with
               | 0 | 1 => None
               | 2 =>
                   match skipNL src' with
                   | String p t =>
                       if Ascii.eqb p "=" then
                         match skipNL t with
                         | "" => Some (quantum dbuf 2)
                         | _ => None
                         end
                       else None
                   | "" => None
                   end
               | _ =>
                   match skipNL src' with
                   | "" => Some (quantum dbuf 3)
                   | _ => None
                   end
               end
      end
  end.

Definition DecodeString (s : string) : option string := decodeLoop s [].

(** Encode: three bytes to four characters, the remainder padded.
    [val3] is [uint(a)<<16 | uint(b)<<8 | uint(c)]. *)
Definition val3 (A B C : N) : N :=
  N.lor (N.lor (N.shiftl A 16) (N.shiftl B 8)) C.

Definition enc3 (a b c : ascii) (n : nat) : string :=
  let val := val3 (byte_of a) (byte_of b) (byte_of c) in
  let e sh := enc6 (N.land (N.shiftr val sh) 63) in
  go_strings.upto n (String (e 18%N) (String (e 12%N) (String (e 6%N) (str1 (e 0%N))))).

Fixpoint EncodeToString (src : string) : string :=
  match src with
  | String a (String b (String c rest)) => enc3 a b c 4 +:+ EncodeToString rest
  | String a (String b "") => enc3 a b "000" 3 +:+ "="
  | String a "" => enc3 a "000" "000" 2 +:+ "=="
  | "" => ""
  end.

(** EncodedLen and DecodedLen for the padded encoding. *)
Definition EncodedLen (n : nat) : nat := (n + 2) / 3 * 4.
Definition DecodedLen (n : nat) : nat := n / 4 * 3.

End go_base64.

(** ** Go's [unicode/utf8] *)

Module go_utf8.

(** The size returned by utf8.DecodeRuneInString: 0 on the empty string,
    1 on ASCII and on every invalid or truncated sequence (RuneError),
    otherwise the length of the well-formed sequence.  [first] gives, for a
    leading byte, the sequence length and the range accepted for the second
    byte (the tables [first] and [acceptRanges]). *)
Definition first (c : ascii) : option (nat * ascii * ascii) :=
  let b := byte_of c in
  if (b <? 0xC2)%N then None                       (* as, xx *)
  else if (b <? 0xE0)%N then Some (2, "128", "191")%char  (* s1 *)
  else if (b =? 0xE0)%N then Some (3, "160", "191")%char  (* s2 *)
  else if (b <? 0xED)%N then Some (3, "128", "191")%char  (* s3 *)
  else if (b =? 0xED)%N then Some (3, "128", "159")%char  (* s4 *)
  else if (b <? 0xF0)%N then Some (3, "128", "191")%char  (* s3 *)
  else if (b =? 0xF0)%N then Some (4, "144", "191")%char  (* s5 *)
  else if (b <? 0xF4)%N then Some (4, "128", "191")%char  (* s6 *)
  else if (b =? 0xF4)%N then Some (4, "128", "143")%char  (* s7 *)
  else None.                                        (* xx *)

(** locb <= c <= hicb *)
Definition cont (c : ascii) : bool := between "128" "191" c.

Definition runeSize (s : string) : nat :=
  match s with
  | "" => 0
  | String s0 r =>
      match first s0 with
      | None => 1
      | Some (sz, lo, hi) =>
          if go_strings.len s <? sz then 1 else
          match r with
          | String s1 r1 =>
              if negb (between lo hi s1) then 1
              else if sz <=? 2 then 2
              else match r1 with
                   | String s2 r2 =>
                       if negb (cont s2) then 1
                       else if sz <=? 3 then 3
                       else match r2 with
                            | String s3 _ => if negb (cont s3) then 1 else 4
                            | "" => 1
                            end
                   | "" => 1
                   end
          | "" => 1
          end
      end
  end.

(** utf8.AppendRune: the UTF-8 encoding of a code point (surrogates and
    values above U+10FFFF are encoded as U+FFFD). *)
Definition EncodeRune (r : N) : string :=
  let b (hi : N) (sh : N) := of_byte (N.lor hi (N.land (N.shiftr r sh) 63)) in
  if (r <? 0x80)%N then str1 (of_byte r)
  else if (r <? 0x800)%N then
    String (of_byte (N.lor 0xC0 (N.shiftr r 6))) (str1 (b 0x80 0))%N
  else if ((0x10FFFF <? r) || ((0xD800 <=? r) && (r <=? 0xDFFF)))%N then
    String "239" (String "191" (str1 "189"))
  else if (r <? 0x10000)%N then
    String (of_byte (N.lor 0xE0 (N.shiftr r 12)))
      (String (b 0x80 6) (str1 (b 0x80 0)))%N
  else
    String (of_byte (N.lor 0xF0 (N.shiftr r 18)))
      (String (b 0x80 12) (String (b 0x80 6) (str1 (b 0x80 0))))%N.

(** unicode.ReplacementChar, U+FFFD *)
Definition ReplacementChar : N := 0xFFFD%N.

End go_utf8.

(** ** Go's [mime] package: encoded words (encodedword.go) *)

(** What a call can come to: it returns a value, returns a non-nil error,
    panics on an index out of range, or (in this model only) runs out of
    the fuel given to its loop. *)
Inductive outcome (A : Type) : Type :=
| Done (a : A)
| Failed
| Panic
| Unfinished.
Arguments Done {A} a.
Arguments Failed {A}.
Arguments Panic {A}.
Arguments Unfinished {A}.

Section Charsets.

(** The Unicode tables are not modelled: the two functions below stand for
    what strings.EqualFold and strings.ToLower do once they have met a byte
    >= 0x80 (Unicode simple case folding, unicode.ToLower). *)
Variable unicodeEqualFold : string -> string -> bool.
Variable unicodeToLower : string -> string.

(** newCharsetReader, the charset backend of this package (it is not part
    of header.go): for a charset name either an error (unknown charset) or
    a reader, which turns the content into UTF-8 text or fails. *)
Variable newCharsetReader : string -> option (string -> option string).

(** strings.EqualFold: the ASCII fast path, byte by byte, up to the first
    position where either string has a byte >= 0x80. *)
Fixpoint EqualFold (s t : string) : bool :=
  match s, t with
  | String sr s', String tr t' =>
      if (128 <=? N.lor (byte_of sr) (byte_of tr))%N then unicodeEqualFold s t
      else if Ascii.eqb tr sr then EqualFold s' t'
      else
        let lo := N.min (byte_of sr) (byte_of tr) in
        let hi := N.max (byte_of sr) (byte_of tr) in
        if between "A" "Z" (of_byte lo) && (hi =? lo + 32)%N
        then EqualFold s' t' else false
  | "", "" => true
  | _, _ => false
  end.

(** strings.ToLower *)
Definition ToLower (s : string) : string :=
  if go_strings.isASCII s then go_strings.mapBytes go_strings.lowerByte s
  else unicodeToLower s.

Definition fromHex (b : ascii) : option N :=
  if between "0" "9" b then Some (byte_of b - 48)%N
  else if between "A" "F" b then Some (byte_of b - 65 + 10)%N
  else if between "a" "f" b then Some (byte_of b - 97 + 10)%N
  else None.

Definition readHexByte (a b : ascii) : option ascii :=
  hb ← fromHex a; lb ← fromHex b;
  Some (of_byte (N.lor (N.shiftl hb 4) lb)).

(** qDecode decodes a Q encoded string. *)
Fixpoint qDecode (s : string) : option string :=
  match s with
  | "" => Some ""
  | String c s' =>
      if Ascii.eqb c "_" then String SP <$> qDecode s'
      else if Ascii.eqb c "=" then
        match s' with
        | String a (String b s'') =>
            d ← readHexByte a b; String d <$> qDecode s''
        | _ => None
        end
      else if between " " "~" c || Ascii.eqb c LF || Ascii.eqb c CR
              || Ascii.eqb c TAB
      then String c <$> qDecode s'
      else None
  end.

Definition decode (encoding : ascii) (text : string) : option string :=
  if Ascii.eqb encoding "B" || Ascii.eqb encoding "b"
  then go_base64.DecodeString text
  else if Ascii.eqb encoding "Q" || Ascii.eqb encoding "q"
  then qDecode text
  else None.

Definition isLWSP (b : ascii) : bool :=
  Ascii.eqb b SP || Ascii.eqb b TAB || Ascii.eqb b LF || Ascii.eqb b CR.

(** hasNonWhitespace ranges over runes; a byte >= 0x80 is never one of the
    four white space runes, so it ranges over bytes here. *)
Definition hasNonWhitespace (s : string) : bool :=
  negb (go_strings.all isLWSP s).

Fixpoint concatMap (f : ascii -> string) (s : string) : string :=
  match s with
  | "" => ""
  | String c s' => f c +:+ concatMap f s'
  end.

(** WordDecoder.convert with CharsetReader = newCharsetReader. *)
Definition convert (charset content : string) : option string :=
  if EqualFold "utf-8" charset then Some content
  else if EqualFold "iso-8859-1" charset then
    Some (concatMap (fun c => go_utf8.EncodeRune (byte_of c)) content)
  else if EqualFold "us-ascii" charset then
    Some (concatMap (fun c => if (128 <=? byte_of c)%N
                              then go_utf8.EncodeRune go_utf8.ReplacementChar
                              else str1 c) content)
  else
    r ← newCharsetReader (ToLower charset); r content.

(** header[lo:hi] *)
Definition slice (lo hi : nat) (s : string) : string :=
  go_strings.upto (hi - lo) (go_strings.from lo s).

(** The loop of WordDecoder.DecodeHeader.  [buf] is the output written so
    far; a [break] leaves the loop, after which the rest of [header] is
    written and the buffer returned. *)
Fixpoint decodeHeaderLoop (fuel : nat) (header : string) (betweenWords : bool)
    (buf : string) : outcome string :=
  let break := Done (buf +:+ header) in
  match go_strings.Index header "=?" with
  | None => break
  | Some start =>
  let cur := start + 2 in
  match go_strings.Index (go_strings.from cur header) "?" with
  | None => break
  | Some i =>
  let charset := slice cur (cur + i) header in
  let cur := cur + i + 1 in
  if go_strings.len header <? cur + 4 then break else
  match go_strings.at_ cur header with
  | None => Panic
  | Some encoding =>
  let cur := cur + 1 in
  match go_strings.at_ cur header with
  | None => Panic
  | Some q =>
  if negb (Ascii.eqb q "?") then break else
  let cur := cur + 1 in
  match go_strings.Index (go_strings.from cur header) "?=" with
  | None => break
  | Some j =>
  let text := slice cur (cur + j) header in
  let end_ := cur + j + 2 in
  match fuel with
  | 0 => Unfinished
  | S fuel' =>
  match decode encoding text with
  | None =>
      decodeHeaderLoop fuel' (go_strings.from (start + 2) header) false
        (buf +:+ go_strings.upto (start + 2) header)
  | Some content =>
      let buf :=
        if (0 <? start)
           && (negb betweenWords
               || hasNonWhitespace (go_strings.upto start header))
        then buf +:+ go_strings.upto start header else buf in
      match convert charset content with
      | None => Failed
      | Some text' =>
          decodeHeaderLoop fuel' (go_strings.from end_ header) true (buf +:+ text')
      end
  end end end end end end end.

(** WordDecoder.DecodeHeader.  Every turn of the loop that does not leave
    it shortens [header] by two bytes at least, so its length is fuel
    enough. *)
Definition DecodeHeader (header : string) : outcome string :=
  match go_strings.Index header "=?" with
  | None => Done header
  | Some i =>
      decodeHeaderLoop (go_strings.len header) (go_strings.from i header) false
        (go_strings.upto i header)
  end.

(** needsEncoding *)
Definition needsEncoding (s : string) : bool :=
  negb (go_strings.all
          (fun b => negb ((negb (between " " "~" b)) && negb (Ascii.eqb b TAB)))
          s).

Definition maxEncodedWordLen : nat := 75.
Definition maxContentLen : nat :=
  maxEncodedWordLen - go_strings.len "=?UTF-8?q?" - go_strings.len "?=".
Definition maxBase64Len : nat := go_base64.DecodedLen maxContentLen.

Definition isUTF8 (charset : string) : bool := EqualFold charset "UTF-8".

(** openWord, closeWord and splitWord for BEncoding, whose byte is 'b'. *)
Definition openWord (charset : string) : string :=
  "=?" +:+ charset +:+ "?" +:+ "b" +:+ "?".
Definition closeWord : string := "?=".
Definition splitWord (charset : string) : string :=
  closeWord +:+ String CR (String LF " ") +:+ openWord charset.

(** The loop of bEncode over [s[i:]].  Go advances [i] by the size of the
    rune at [i]; here the bytes are taken one at a time and [skip] counts
    those of the current rune still to pass.  [chunk] is [s[last:i]]. *)
Fixpoint bEncodeLoop (charset s : string) (skip currentLen : nat)
    (chunk : string) : string :=
  match s with
  | "" => go_base64.EncodeToString chunk
  | String c s' =>
      match skip with
      | S k => bEncodeLoop charset s' k currentLen (chunk +:+ str1 c)
      | 0 =>
          let runeLen := go_utf8.runeSize s in
          if currentLen + runeLen <=? maxBase64Len
          then bEncodeLoop charset s' (runeLen - 1) (currentLen + runeLen)
                 (chunk +:+ str1 c)
          else go_base64.EncodeToString chunk +:+ splitWord charset
               +:+ bEncodeLoop charset s' (runeLen - 1) runeLen (str1 c)
      end
  end.

Definition bEncode (charset s : string) : string :=
  if negb (isUTF8 charset)
     || (go_base64.EncodedLen (go_strings.len s) <=? maxContentLen)
  then go_base64.EncodeToString s
  else bEncodeLoop charset s 0 0 "".

Definition encodeWord (charset s : string) : string :=
  openWord charset +:+ bEncode charset s +:+ closeWord.

(** mime.BEncoding.Encode *)
Definition BEncoding_Encode (charset s : string) : string :=
  if negb (needsEncoding s) then s else encodeWord charset s.

(** ** header.go *)

(** decodeHeader decodes a single line (per RFC 2047) using Golang's
    mime.WordDecoder.  [Failed] is [err != nil]; the last two outcomes do
    not occur (lemma [DecodeHeader_returns]). *)
Definition decodeHeader (input : string) : string :=
  if negb (go_strings.Contains input "=?") then input
  else match DecodeHeader input with
       | Done header => header
       | Failed => input
       | Panic | Unfinished => input
       end.

(** Detects a RFC-822 linear-white-space, passed to strings.FieldsFunc *)
Definition isWhiteSpaceRune (r : ascii) : bool :=
  if Ascii.eqb r " " then true
  else if Ascii.eqb r TAB then true
  else if Ascii.eqb r CR then true
  else if Ascii.eqb r LF then true
  else false.

(** The body of the loop of decodeToUTF8Base64Header: output[i] for a
    token.  A token longer than 4 bytes still has 4 bytes or more once a
    leading parenthesis is taken off, so neither index is out of range. *)
Definition reencodeToken (token : string) : string :=
  if (4 <? go_strings.len token) && go_strings.Contains token "=?" then
    let '(prefix, token) :=
      match token with
      | String "(" rest => ("(", rest)
      | _ => ("", token)
      end in
    let '(suffix, token) :=
      match go_strings.lastByte token with
      | Some ")"%char => (")", go_strings.upto (go_strings.len token - 1) token)
      | _ => ("", token)
      end in
    prefix +:+ BEncoding_Encode "UTF-8" (decodeHeader token) +:+ suffix
  else token.

(** decodeToUTF8Base64Header decodes a MIME header per RFC 2047,
    reencoding to =?utf-8b? *)
Definition decodeToUTF8Base64Header (input : string) : string :=
  if negb (go_strings.Contains input "=?") then input
  else
    let tokens := go_strings.FieldsFunc input isWhiteSpaceRune in
    let output := reencodeToken <$> tokens in
    go_strings.Join output " ".

(** ** Vocabulary of the properties that depends on the charsets *)

(** The charsets that WordDecoder.convert handles itself, before it turns
    to the charset backend. *)
Definition builtinCharset (charset : string) : bool :=
  EqualFold "utf-8" charset || EqualFold "iso-8859-1" charset
  || EqualFold "us-ascii" charset.

(** A charset unknown to the charset backend (and not one of mime's own). *)
Definition unknownCharset (charset : string) : Prop :=
  builtinCharset charset = false /\ newCharsetReader (ToLower charset) = None.

End Charsets.

(** ** Errors *)

Inductive error : Type :=
| EOF                              (* io.EOF *)
| ErrBufferFull                    (* bufio.ErrBufferFull *)
| ReadError (msg : string)         (* any other error of the byte source *)
| ProtocolError (msg : string).    (* textproto.ProtocolError *)

(** ** Go's [bufio.Reader] *)

(** A reader with a buffer of [bufSize] bytes over a source that still
    holds [pending] and then reports [ending] (io.EOF at the end of a
    stream). *)
Record Reader : Type := mkReader {
  bufSize : nat;
  pending : string;
  ending : error
}.

(** Reader.ReadSlice('\n'): the bytes up to and including the first line
    feed.  When the buffer fills before a line feed is seen the buffer is
    returned with ErrBufferFull; when the source ends first, what was read
    is returned with the source's error. *)
Definition ReadSlice (r : Reader) : string * option error * Reader :=
  let window := go_strings.upto (bufSize r) (pending r) in
  match go_strings.IndexByte window LF with
  | Some i =>
      (go_strings.upto (i + 1) (pending r), None,
       mkReader (bufSize r) (go_strings.from (i + 1) (pending r)) (ending r))
  | None =>
      if bufSize r <=? go_strings.len (pending r)
      then (window, Some ErrBufferFull,
            mkReader (bufSize r) (go_strings.from (bufSize r) (pending r))
              (ending r))
      else (pending r, Some (ending r), mkReader (bufSize r) "" (ending r))
  end.

(** ** Go's [net/textproto] (reader.go as of Go 1.8), over the bytes of the
    in-memory buffer that readHeader hands to it *)

Module go_textproto.

Definition isBlank (c : ascii) : bool := Ascii.eqb c SP || Ascii.eqb c TAB.

Fixpoint trimLeft (s : string) : string :=
  match s with
  | String c s' => if isBlank c then trimLeft s' else s
  | "" => ""
  end.

(** trim returns s with leading and trailing spaces and tabs removed. *)
Definition trim (s : string) : string :=
  String.rev (trimLeft (String.rev (trimLeft s))).

(** readLineSlice: the next line without its "\n" or "\r\n"; [None] is
    io.EOF, met when no byte is left. *)
Definition readLineSlice (s : string) : option (string * string) :=
  match s with
  | "" => None
  | _ =>
      match go_strings.IndexByte s LF with
      | Some i =>
          let line := go_strings.upto i s in
          let line :=
            match go_strings.lastByte line with
            | Some c => if Ascii.eqb c CR
                        then go_strings.upto (i - 1) line else line
            | None => line
            end in
          Some (line, go_strings.from (i + 1) s)
      | None => Some (s, "")
      end
  end.

(** skipSpace skips over all spaces and returns the number of bytes
    skipped. *)
Fixpoint skipSpace (s : string) : nat * string :=
  match s with
  | String c s' =>
      if isBlank c then let '(n, r) := skipSpace s' in (S n, r) else (0, s)
  | "" => (0, "")
  end.

(** "Read continuation lines." *)
Fixpoint continuation (fuel : nat) (buf s : string) : option (string * string) :=
  let '(n, s1) := skipSpace s in
  if 0 <? n then
    match readLineSlice s1 with
    | None => Some (buf, s1)
    | Some (line, s2) =>
        match fuel with
        | 0 => None
        | S fuel' => continuation fuel' (buf +:+ " " +:+ trim line) s2
        end
    end
  else Some (buf, s1).

(** readContinuedLineSlice: [inl e] is the error [e]; out of fuel is
    [None]. *)
Definition readContinuedLineSlice (s : string)
  : option ((error + string) * string) :=
  match readLineSlice s with
  | None => Some (inl EOF, s)
  | Some (line, s1) =>
      if go_strings.len line =? 0 then Some (inr line, s1)
      else '(buf, s2) ← continuation (go_strings.len s1) (trim line) s1;
           Some (inr buf, s2)
  end.

Definition validHeaderFieldByte (c : ascii) : bool :=
  between "0" "9" c || between "a" "z" c || between "A" "Z" c
  || go_strings.Contains "!#$%&'*+-.^_`|~" (str1 c).

Fixpoint canonLoop (upper : bool) (a : string) : string :=
  match a with
  | "" => ""
  | String c a' =>
      let c :=
        if upper && between "a" "z" c then of_byte (byte_of c - 32)
        else if negb upper && between "A" "Z" c then of_byte (byte_of c + 32)
        else c in
      String c (canonLoop (Ascii.eqb c "-") a')
  end.

(** canonicalMIMEHeaderKey: a key with a byte that is not a token byte is
    returned unchanged.  (The table commonHeader only shares the storage
    of the canonical strings.) *)
Definition canonicalMIMEHeaderKey (a : string) : string :=
  if go_strings.all validHeaderFieldByte a then canonLoop true a else a.

(** "Key ends at first colon; should not have spaces ... so we remove them
    if present." *)
Fixpoint trimRightSpaces (s : string) : string :=
  match s with
  | "" => ""
  | String c s' =>
      match trimRightSpaces s' with
      | "" => if Ascii.eqb c SP then "" else str1 c
      | t => String c t
      end
  end.

(** textproto.MIMEHeader is map[string][]string. *)
Abbreviation MIMEHeader := (gmap string (list string)).

(** The loop of Reader.ReadMIMEHeader; [None] is out of fuel. *)
Fixpoint readMIMEHeaderLoop (fuel : nat) (m : MIMEHeader) (s : string)
  : option (MIMEHeader * option error * string) :=
  match readContinuedLineSlice s with
  | None => None
  | Some (inl err, s1) => Some (m, Some err, s1)
  | Some (inr kv, s1) =>
      if go_strings.len kv =? 0 then Some (m, None, s1) else
      match go_strings.IndexByte kv ":" with
      | None =>
          Some (m, Some (ProtocolError ("malformed MIME header line: " +:+ kv)), s1)
      | Some i =>
          let key := canonicalMIMEHeaderKey (trimRightSpaces (go_strings.upto i kv)) in
          match fuel with
          | 0 => None
          | S fuel' =>
              if go_strings.len key =? 0 then readMIMEHeaderLoop fuel' m s1 else
              let value := trimLeft (go_strings.from (i + 1) kv) in
              readMIMEHeaderLoop fuel'
                (<[key := default [] (m !! key) ++ [value]]> m) s1
          end
      end
  end.

Definition ReadMIMEHeader (s : string)
  : option (MIMEHeader * option error * string) :=
  readMIMEHeaderLoop (go_strings.len s) ∅ s.

(** MIMEHeader.Get: the first value of the key, canonicalized, or "". *)
Definition Get (h : MIMEHeader) (key : string) : string :=
  match h !! canonicalMIMEHeaderKey key with
  | Some (v :: _) => v
  | _ => ""
  end.

End go_textproto.

(** ** header.go: readHeader *)

(** MIMEError describes an error encountered while parsing. *)
Record MIMEError : Type := mkMIMEError {
  Name : string;    (* The name or type of error encountered *)
  Detail : string;  (* Additional detail about the cause of the error *)
  Severe : bool     (* A portion of the message was lost during parsing *)
}.

(** Part: of this struct (declared outside header.go) only the list of
    errors matters here, the one readHeader's comment speaks of. *)
Record Part : Type := mkPart {
  Errors : list MIMEError
}.

(** The first loop of readHeader: lines are copied to [buf] up to the
    first line that starts with CR or LF.  [inl e] is the error of
    ReadSlice; [None] is out of fuel. *)
Fixpoint readHeaderLines (fuel : nat) (r : Reader) (buf : string)
  : option ((error + string) * Reader) :=
  let '(lineBuf, err, r') := ReadSlice r in
  match err with
  | Some e => Some (inl e, r')
  | None =>
      match lineBuf with
      | "" => Some (inr buf, r')
      | String c _ =>
          if Ascii.eqb c CR || Ascii.eqb c LF then Some (inr buf, r')
          else match fuel with
               | 0 => None
               | S fuel' => readHeaderLines fuel' r' (buf +:+ lineBuf)
               end
      end
  end.

(** What readHeader returns, (header, err), with the reader and the part
    as it leaves them; a nil header is [None]. *)
Record readResult : Type := mkResult {
  header : option (gmap string (list string));
  err : option error;
  reader : Reader;
  part : Part
}.

(** readHeader reads a block of SMTP or MIME headers and returns a
    textproto.MIMEHeader.  [None] is out of fuel. *)
Definition readHeader (r : Reader) (p : Part) : option readResult :=
  match readHeaderLines (go_strings.len (pending r)) r "" with
  | None => None
  | Some (inl e, r') => Some (mkResult None (Some e) r' p)
  | Some (inr buf, r') =>
      let buf := buf +:+ String CR (str1 LF) in
      '(h, e, _) ← go_textproto.ReadMIMEHeader buf;
      Some (mkResult (Some h) e r' p)
  end.

(** ** MIMEError.String *)

(** fmt.Sprintf for a format whose verbs are all [%s], with string
    operands: each verb takes the next operand ([%!s(MISSING)] when there
    is none left), [%%] is a percent sign, and operands left over are
    reported at the end. *)
Fixpoint sprintfLoop (format : string) (args : list string)
  : string * list string :=
  match format with
  | String "%" (String "s" format') =>
      match args with
      | a :: args' =>
          let '(out, rest) := sprintfLoop format' args' in (a +:+ out, rest)
      | [] =>
          let '(out, rest) := sprintfLoop format' [] in
          ("%!s(MISSING)" +:+ out, rest)
      end
  | String "%" (String "%" format') =>
      let '(out, rest) := sprintfLoop format' args in (String "%" out, rest)
  | String c format' =>
      let '(out, rest) := sprintfLoop format' args in (String c out, rest)
  | "" => ("", args)
  end.

Definition Sprintf (format : string) (args : list string) : string :=
  let '(out, rest) := sprintfLoop format args in
  match rest with
  | [] => out
  | _ =>
      out +:+ "%!(EXTRA "
          +:+ go_strings.Join ((fun a => "string=" +:+ a) <$> rest) ", " +:+ ")"
  end.

Definition MIMEError_String (e : MIMEError) : string :=
  let sev := "W" in
  let sev := if Severe e then "E" else sev in
  Sprintf "[%s] %s: %s" [sev; Name e; Detail e].

(** ** Vocabulary of the properties *)

(** encoded-word: the entire =?charset?encoding?encoded-text?= string
    (the terminology of header.go, from RFC 2047). *)
Definition word (cs : string) (enc : ascii) (text : string) : string :=
  "=?" +:+ cs +:+ "?" +:+ String enc ("?" +:+ text +:+ "?=").

(** The encoding field of an encoded-word is one of the two recognized
    letters, in either case. *)
Definition recognized (encoding : string) : bool :=
  match encoding with
  | String e "" =>
      Ascii.eqb e "B" || Ascii.eqb e "b" || Ascii.eqb e "Q" || Ascii.eqb e "q"
  | _ => false
  end.

(** The field contains a carriage return or a line feed. *)
Definition hasCRLF (s : string) : bool :=
  negb (go_strings.all (fun c => negb (go_base64.isNL c)) s).

(** What the Q encoding of encoded-words does to an underscore. *)
Definition underscoreToSpace (c : ascii) : ascii :=
  if Ascii.eqb c "_" then SP else c.

(** A printable ASCII byte that stands for itself in a Q-encoded text (or,
    for the underscore, for a space): neither [=] nor [?]. *)
Definition qplain (c : ascii) : bool :=
  between " " "~" c && negb (Ascii.eqb c "=") && negb (Ascii.eqb c "?").

(** The number of bytes [c] in [s]. *)
Fixpoint count (c : ascii) (s : string) : nat :=
  match s with
  | "" => 0
  | String d s' => (if Ascii.eqb d c then 1 else 0) + count c s'
  end.

(** A header block that the stream ends before closing: lines that each
    start with a byte other than CR and LF and end with the first LF, and
    then bytes without LF. *)
Inductive unterminated : string -> Prop :=
| unterminated_tail tail :
    count LF tail = 0 -> unterminated tail
| unterminated_line c body rest :
    c <> CR -> c <> LF -> count LF body = 0 -> unterminated rest ->
    unterminated (String c (body +:+ String LF rest)).

(** The header block of the continuation example, followed by the start
    of a body. *)
Definition continuationBlock : string :=
"X-Bad-Continuation: line1=foo;
line2=bar; name=value:text
X-Not-Continuation: line1=foo;
line2: bar

Part body
".

(** White space delimited tokens: [Tokens s ts] when [ts] are the maximal
    runs of bytes of [s] that are not white space, in order.  [sep] says
    which bytes are white space. *)
Inductive Tokens (sep : ascii -> bool) : string -> list string -> Prop :=
| Tokens_nil ws :
    go_strings.all sep ws = true -> Tokens sep ws []
| Tokens_cons ws t rest ts :
    go_strings.all sep ws = true ->
    t <> "" -> go_strings.all (fun c => negb (sep c)) t = true ->
    match rest with String c _ => sep c = true | "" => True end ->
    Tokens sep rest ts ->
    Tokens sep (ws +:+ t +:+ rest) (t :: ts).

(** An encoded-word that does not decode: its encoding field is not a
    recognized letter, or its text is not valid in the encoding, or its
    charset is unknown.  (The fields of an encoded-word hold no question
    mark.) *)
Section Anomalies.

Variable unicodeEqualFold : string -> string -> bool.
Variable unicodeToLower : string -> string.
Variable newCharsetReader : string -> option (string -> option string).

Inductive anomalous : string -> Prop :=
| anomalous_encoding cs encf text :
    count "?" cs = 0 -> count "?" encf = 0 -> count "?" text = 0 ->
    recognized encf = false ->
    anomalous ("=?" +:+ cs +:+ "?" +:+ encf +:+ "?" +:+ text +:+ "?=")
| anomalous_text cs e text :
    count "?" cs = 0 -> count "?" text = 0 ->
    recognized (str1 e) = true -> decode e text = None ->
    anomalous (word cs e text)
| anomalous_charset cs e text :
    count "?" cs = 0 -> count "?" text = 0 ->
    recognized (str1 e) = true ->
    unknownCharset unicodeEqualFold unicodeToLower newCharsetReader cs ->
    anomalous (word cs e text).

End Anomalies.

(** A token: not empty, no white space in it. *)
Definition isToken (t : string) : Prop :=
  t <> "" /\ go_strings.all (fun c => negb (isWhiteSpaceRune c)) t = true.

(** A byte that can stand in a header line as it is: printable ASCII, a
    tab, or the CR and LF of a line fold. *)
Definition headerSafe (c : ascii) : bool :=
  between " " "~" c || Ascii.eqb c TAB || Ascii.eqb c CR || Ascii.eqb c LF.

(** The lines of a header block, for a reader with a buffer of [size]
    bytes: a header line starts with a byte other than CR and LF and ends
    with its first LF; the line that closes the block starts with CR or LF
    and ends with its first LF, whatever lies between.  Both fit the
    buffer. *)
Definition isHeaderLine (size : nat) (l : string) : Prop :=
  exists c body,
    l = String c (body +:+ String LF "")
    /\ c <> CR /\ c <> LF /\ count LF body = 0 /\ go_strings.len l <= size.

Definition isEndLine (size : nat) (l : string) : Prop :=
  exists pre,
    l = pre +:+ String LF ""
    /\ (pre = "" \/ exists junk, pre = String CR junk)
    /\ count LF pre = 0 /\ go_strings.len l <= size.

(** The lines one after the other. *)
Definition concatLines (ls : list string) : string :=
  foldr String.append "" ls.

(** The trim of the right end only. *)
Definition trimRight (s : string) : string :=
  String.rev (go_textproto.trimLeft (String.rev s)).

(** A field of a header block as it is written: a name of one or more
    token bytes, a colon, and a text without CR and LF, closed by CR LF. *)
Definition isField (f : string * string) : Prop :=
  f.1 <> "" /\ go_strings.all go_textproto.validHeaderFieldByte f.1 = true
  /\ count LF f.2 = 0 /\ count CR f.2 = 0.

Definition renderField (f : string * string) : string :=
  f.1 +:+ ":" +:+ f.2 +:+ String CR (String LF "").

(** What ReadMIMEHeader does with a field: m[key] = append(m[key], value),
    for the canonical key and the text without the blanks at its ends. *)
Definition addField (m : gmap string (list string)) (f : string * string)
  : gmap string (list string) :=
  let key := go_textproto.canonicalMIMEHeaderKey f.1 in
  <[key := default [] (m !! key) ++ [go_textproto.trim f.2]]> m.

(** m[key] = append(m[key], value) for the canonical key of [k]. *)
Definition addValue (m : gmap string (list string)) (k v : string)
  : gmap string (list string) :=
  let key := go_textproto.canonicalMIMEHeaderKey k in
  <[key := default [] (m !! key) ++ [v]]> m.

(** The texts, trimmed, of the fields whose canonical name is [key], in
    the order of the block. *)
Definition valuesOf (key : string) (fs : list (string * string)) : list string :=
  (fun f => go_textproto.trim f.2)
    <$> filter (fun f => go_textproto.canonicalMIMEHeaderKey f.1 = key) fs.

(** * Properties *)

(** ** Strings *)

Import go_strings.

Lemma app_cons c s t : String c s +:+ t = String c (s +:+ t).
Proof. reflexivity. Qed.

Lemma app_nil_l t : "" +:+ t = t.
Proof. reflexivity. Qed.

Lemma app_nil_r s : s +:+ "" = s.
Proof. induction s as [|c s IH]; [done|]. by rewrite app_cons, IH. Qed.

Lemma app_assoc_s s t u : (s +:+ t) +:+ u = s +:+ t +:+ u.
Proof. induction s as [|c s IH]; [done|]. by rewrite !app_cons, IH. Qed.

Lemma len_app s t : len (s +:+ t) = len s + len t.
Proof.
  unfold len. induction s as [|c s IH]; [done|].
  rewrite app_cons. simpl. by rewrite IH.
Qed.

Lemma len_from n s : len (from n s) = len s - n.
Proof.
  unfold len. revert s. induction n as [|n IH]; intros [|c s]; simpl; auto.
Qed.

Lemma len_upto n s : len (upto n s) = min n (len s).
Proof.
  unfold len. revert s. induction n as [|n IH]; intros [|c s]; simpl; auto.
Qed.

Lemma upto_from n s : upto n s +:+ from n s = s.
Proof.
  revert s. induction n as [|n IH]; intros [|c s]; simpl; try done.
  by rewrite app_cons, IH.
Qed.

Lemma from_app s t : from (len s) (s +:+ t) = t.
Proof.
  unfold len. induction s as [|c s IH]; [by destruct t|].
  rewrite app_cons. simpl. apply IH.
Qed.

Lemma upto_app s t : upto (len s) (s +:+ t) = s.
Proof.
  unfold len. induction s as [|c s IH]; [by destruct t|].
  rewrite app_cons. simpl. by rewrite IH.
Qed.

Lemma from_from n m s : from n (from m s) = from (m + n) s.
Proof.
  revert s. induction m as [|m IH]; intros s; simpl; [done|].
  destruct s as [|c s]; [by destruct n|]. apply IH.
Qed.

Lemma from_ge n s : len s <= n -> from n s = "".
Proof.
  unfold len. revert s. induction n as [|n IH]; intros [|c s]; simpl;
    try done; try lia. intros. apply IH. lia.
Qed.

Lemma at_lt i s : i < len s -> is_Some (at_ i s).
Proof.
  unfold len. revert i. induction s as [|c s IH]; intros i; simpl; [lia|].
  destruct i; [eauto|]. intros. apply IH. lia.
Qed.

Lemma Index_eq s sub :
  Index s sub =
    if HasPrefix s sub then Some 0
    else match s with "" => None | String _ s' => S <$> Index s' sub end.
Proof. by destruct s. Qed.

Lemma HasPrefix_len s sub : HasPrefix s sub = true -> len sub <= len s.
Proof.
  unfold len. revert s. induction sub as [|d sub IH]; intros [|e t]; simpl;
    try done; try lia.
  destruct (Ascii.eqb e d); [|done]. intros H%IH. lia.
Qed.

Lemma Index_lt s sub i : Index s sub = Some i -> i + len sub <= len s.
Proof.
  revert i. induction s as [|c s IH]; intros i; rewrite Index_eq;
    destruct (HasPrefix _ sub) eqn:Hp; try done.
  - intros [= <-]. by apply HasPrefix_len.
  - intros [= <-]. by apply HasPrefix_len.
  - destruct (Index s sub) as [k|]; simpl; [|done].
    intros [= <-]. specialize (IH k eq_refl). unfold len in *. simpl. lia.
Qed.

Lemma HasPrefix_eq s p :
  HasPrefix s p =
    match p, s with
    | "", _ => true
    | String a p', String c s' => if Ascii.eqb c a then HasPrefix s' p' else false
    | String _ _, "" => false
    end.
Proof. by destruct s, p. Qed.

Lemma Index_None_cons c s sub :
  Index (String c s) sub = None ->
  HasPrefix (String c s) sub = false /\ Index s sub = None.
Proof.
  rewrite Index_eq. destruct (HasPrefix _ _); [done|].
  destruct (Index s sub); simpl; [done|]. auto.
Qed.

(** An occurrence of a two-byte pattern [ab], a <> b, placed after a
    string that has none is the first one. *)
Lemma Index_app2 (a b : ascii) pre r :
  a <> b ->
  Index pre (String a (String b "")) = None ->
  Index (pre +:+ String a (String b r)) (String a (String b "")) = Some (len pre).
Proof.
  intros Hab. induction pre as [|c pre IH]; intros Hno.
  - rewrite app_nil_l, Index_eq. simpl. by rewrite !Ascii.eqb_refl.
  - apply Index_None_cons in Hno as [Hp Hno].
    rewrite app_cons, Index_eq, (IH Hno).
    replace (HasPrefix _ _) with false; [done|].
    symmetry. simpl in *. destruct (Ascii.eqb c a) eqn:Hca; [|done].
    clear IH. destruct pre as [|d pre]; simpl in *.
    + by destruct (Ascii.eqb_spec a b).
    + rewrite ?app_cons. by destruct (Ascii.eqb d b).
Qed.

Lemma Index_app1 (a : ascii) pre r :
  Index pre (String a "") = None ->
  Index (pre +:+ String a r) (String a "") = Some (len pre).
Proof.
  induction pre as [|c pre IH]; intros Hno.
  - rewrite app_nil_l, Index_eq. simpl. by rewrite Ascii.eqb_refl.
  - apply Index_None_cons in Hno as [Hp Hno].
    rewrite app_cons, Index_eq, (IH Hno).
    simpl in *. by destruct (Ascii.eqb c a).
Qed.

Lemma from_app_len n a b : n = len a -> from n (a +:+ b) = b.
Proof. intros ->. apply from_app. Qed.

Lemma upto_app_len n a b : n = len a -> upto n (a +:+ b) = a.
Proof. intros ->. apply upto_app. Qed.

Lemma from_app_plus k a b : from (len a + k) (a +:+ b) = from k b.
Proof. by rewrite <- from_from, from_app. Qed.

Lemma at_app a c b : at_ (len a) (a +:+ String c b) = Some c.
Proof. unfold len. induction a as [|d a IH]; [done|]. by rewrite app_cons. Qed.

Lemma at_from i k s : at_ (k + i) s = at_ i (from k s).
Proof.
  revert s. induction k as [|k IH]; intros [|c s]; simpl; try done.
  by destruct i.
Qed.

Lemma count_from c k s : count c (from k s) <= count c s.
Proof.
  revert s. induction k as [|k IH]; intros [|d s]; simpl; try lia.
  specialize (IH s). lia.
Qed.

Lemma at_count c k s :
  at_ k s = Some c -> count c (from (S k) s) < count c s.
Proof.
  revert s. induction k as [|k IH]; intros [|d s]; simpl; try done.
  - intros [= ->]. rewrite Ascii.eqb_refl.
    change (count c (from 0 s) < 1 + count c s). simpl.
    destruct s; simpl; lia.
  - intros H%IH. simpl in H. lia.
Qed.

Lemma HasPrefix_at s a b :
  HasPrefix s (String a (String b "")) = true -> at_ 0 s = Some a /\ at_ 1 s = Some b.
Proof.
  destruct s as [|c [|d s]]; simpl; try done.
  - by destruct (Ascii.eqb c a).
  - destruct (Ascii.eqb_spec c a) as [->|]; [|done].
    by destruct (Ascii.eqb_spec d b) as [->|].
Qed.

Lemma Index2_at s a b i :
  Index s (String a (String b "")) = Some i -> at_ (S i) s = Some b.
Proof.
  revert i. induction s as [|c s IH]; intros i; rewrite Index_eq.
  - simpl. done.
  - destruct (HasPrefix _ _) eqn:Hp.
    + intros [= <-]. by apply HasPrefix_at in Hp as [_ ?].
    + destruct (Index s _) as [k|]; simpl; [|done].
      intros [= <-]. by apply IH.
Qed.

Lemma Index1_at s a i : Index s (String a "") = Some i -> at_ i s = Some a.
Proof.
  revert i. induction s as [|c s IH]; intros i; rewrite Index_eq.
  - simpl. done.
  - destruct (HasPrefix _ _) eqn:Hp.
    + intros [= <-]. simpl in *. by destruct (Ascii.eqb_spec c a) as [->|].
    + destruct (Index s _) as [k|]; simpl; [|done].
      intros [= <-]. by apply IH.
Qed.

Lemma count0_Index a b s :
  count a s = 0 -> Index s (String a (String b "")) = None.
Proof.
  induction s as [|c s IH]; simpl; [done|].
  destruct (Ascii.eqb c a); simpl; [done|]. intros H%IH.
  by rewrite H.
Qed.



Lemma from_app_plus' n k a b : n = len a + k -> from n (a +:+ b) = from k b.
Proof. intros ->. apply from_app_plus. Qed.

Lemma upto_app_plus k a b : upto (len a + k) (a +:+ b) = a +:+ upto k b.
Proof.
  unfold len. induction a as [|c a IH]; [done|].
  rewrite !app_cons. simpl. by rewrite IH.
Qed.

Lemma slice_from lo n s : slice lo (lo + n) s = upto n (from lo s).
Proof. unfold slice. by rewrite Nat.add_comm, Nat.add_sub. Qed.


Lemma Index_short s sub : len s < len sub -> Index s sub = None.
Proof.
  intros Hl. destruct (Index s sub) as [i|] eqn:E; [|done].
  apply Index_lt in E. lia.
Qed.


Ltac str_norm :=
  repeat first [rewrite app_assoc_s | rewrite app_cons | rewrite app_nil_l].
Ltac str_norm_in H :=
  repeat first [rewrite app_assoc_s in H | rewrite app_cons in H
               | rewrite app_nil_l in H].

Lemma len_cons c s : len (String c s) = S (len s).
Proof. done. Qed.

Lemma len_nil : len "" = 0.
Proof. done. Qed.

Create Rewrite HintDb len.
#[export] Hint Rewrite len_app len_cons len_nil : len.

Ltac len_solve := unfold word in *; autorewrite with len in *; lia.

(** ** DecodeHeader returns *)

Section Decoding.

Variable unicodeEqualFold : string -> string -> bool.
Variable unicodeToLower : string -> string.
Variable newCharsetReader : string -> option (string -> option string).

Local Abbreviation convert' := (convert unicodeEqualFold unicodeToLower newCharsetReader).
Local Abbreviation loop := (decodeHeaderLoop unicodeEqualFold unicodeToLower newCharsetReader).
Local Abbreviation DecodeHeader' := (DecodeHeader unicodeEqualFold unicodeToLower newCharsetReader).
Local Abbreviation decodeHeader' := (decodeHeader unicodeEqualFold unicodeToLower newCharsetReader).
Local Abbreviation reencodeToken' := (reencodeToken unicodeEqualFold unicodeToLower newCharsetReader).
Local Abbreviation decodeToUTF8Base64Header' :=
  (decodeToUTF8Base64Header unicodeEqualFold unicodeToLower newCharsetReader).

Lemma decodeHeaderLoop_returns fuel h bw buf :
  len h <= fuel ->
  (exists r, loop fuel h bw buf = Done r) \/ loop fuel h bw buf = Failed.
Proof.
  revert h bw buf. induction fuel as [|fuel IH]; intros h bw buf Hlen.
  - simpl. repeat case_match; eauto; exfalso;
    match goal with H : (_ <? _) = false |- _ => apply Nat.ltb_ge in H end; lia.
  - simpl. repeat case_match; eauto;
      match goal with H : (_ <? _) = false |- _ => apply Nat.ltb_ge in H end.
    1-3: apply IH; rewrite len_from; lia.
    all: match goal with H : at_ ?i ?hh = None |- _ =>
           destruct (at_lt i hh) as [? ?]; [lia|congruence] end.
Qed.

Lemma DecodeHeader_returns h :
  (exists r, DecodeHeader' h = Done r) \/ DecodeHeader' h = Failed.
Proof.
  unfold DecodeHeader. destruct (Index h "=?") as [i|]; [|eauto].
  apply decodeHeaderLoop_returns. rewrite len_from. lia.
Qed.

Lemma loop_word fuel pre cs enc text rest bw buf :
  Index pre "=?" = None -> Index cs "?" = None -> Index text "?=" = None ->
  loop (S fuel) (pre +:+ word cs enc text +:+ rest) bw buf =
    match decode enc text with
    | None =>
        loop fuel (cs +:+ "?" +:+ String enc ("?" +:+ text +:+ "?=" +:+ rest))
          false (buf +:+ pre +:+ "=?")
    | Some content =>
        match convert' cs content with
        | None => Failed
        | Some t =>
            loop fuel rest true
              ((if (0 <? len pre) && (negb bw || hasNonWhitespace pre)
                then buf +:+ pre else buf) +:+ t)
        end
    end.
Proof.
  intros Hpre Hcs Htext. unfold word.
  rewrite !app_assoc_s, !app_cons, !app_nil_l, !app_assoc_s, !app_cons, !app_nil_l.
  set (T3 := text +:+ String "?" (String "=" rest)).
  set (T2 := cs +:+ String "?" (String enc (String "?" T3))).
  set (H := pre +:+ String "=" (String "?" T2)).
  assert (F1 : Index H "=?" = Some (len pre)) by by apply Index_app2.
  assert (F2 : from (len pre + 2) H = T2) by (unfold H; by rewrite from_app_plus).
  assert (F3 : Index T2 "?" = Some (len cs)) by by apply Index_app1.
  assert (F4 : from (len pre + 2 + len cs + 1) H = String enc (String "?" T3)).
  { rewrite <- Nat.add_assoc, <- from_from, F2. unfold T2.
    by rewrite from_app_plus. }
  assert (F5 : len H = len pre + 2 + len cs + 1 + (2 + len text + 2 + len rest)).
  { unfold H, T2, T3. rewrite !len_app. unfold len. simpl.
    rewrite !len_app. unfold len. simpl. rewrite !len_app. unfold len. simpl. lia. }
  assert (F6 : at_ (len pre + 2 + len cs + 1) H = Some enc).
  { rewrite <- (Nat.add_0_r (_ + 1)), at_from, F4. done. }
  assert (F7 : at_ (len pre + 2 + len cs + 1 + 1) H = Some "?"%char).
  { rewrite at_from, F4. done. }
  assert (F8 : from (len pre + 2 + len cs + 1 + 1 + 1) H = T3).
  { rewrite <- !(Nat.add_assoc (_ + len cs + 1)), <- from_from, F4. done. }
  assert (F9 : Index T3 "?=" = Some (len text)) by by apply Index_app2.
  simpl. rewrite F1, F2, F3, F5, F6, F7, F8, F9. simpl.
  replace (_ <? _) with false by (symmetry; apply Nat.ltb_ge; lia).
  rewrite !slice_from, F2, F8.
  rewrite <- (Nat.add_assoc _ (len text) 2), <- from_from, F8.
  unfold T3 at 1 2. rewrite upto_app, from_app_plus. simpl from.
  unfold T2 at 1. rewrite upto_app.
  unfold H. rewrite upto_app, upto_app_plus. simpl upto.
  done.
Qed.

Lemma loop_nomark fuel h bw buf :
  Index h "=?" = None -> loop fuel h bw buf = Done (buf +:+ h).
Proof. intros E. destruct fuel; simpl; by rewrite E. Qed.

Lemma loop_break0 fuel pre T bw buf :
  Index pre "=?" = None -> Index T "?" = None ->
  loop fuel (pre +:+ "=?" +:+ T) bw buf = Done (buf +:+ pre +:+ "=?" +:+ T).
Proof.
  intros Hpre HT. rewrite !app_cons, !app_nil_l.
  set (H := pre +:+ _).
  assert (F1 : Index H "=?" = Some (len pre)) by by apply Index_app2.
  assert (F2 : from (len pre + 2) H = T) by (unfold H; by rewrite from_app_plus).
  destruct fuel; simpl; by rewrite F1, F2, HT.
Qed.

Lemma loop_break fuel pre cs T bw buf :
  Index pre "=?" = None -> Index cs "?" = None ->
  (forall e T', T = String e (String "?" T') -> Index T' "?=" = None) ->
  loop fuel (pre +:+ "=?" +:+ cs +:+ "?" +:+ T) bw buf
  = Done (buf +:+ pre +:+ "=?" +:+ cs +:+ "?" +:+ T).
Proof.
  intros Hpre Hcs HT. rewrite !app_cons, !app_nil_l.
  set (T2 := cs +:+ String "?" T).
  set (H := pre +:+ String "=" (String "?" T2)).
  assert (F1 : Index H "=?" = Some (len pre)) by by apply Index_app2.
  assert (F2 : from (len pre + 2) H = T2) by (unfold H; by rewrite from_app_plus).
  assert (F3 : Index T2 "?" = Some (len cs)) by by apply Index_app1.
  assert (F4 : from (len pre + 2 + len cs + 1) H = T).
  { rewrite <- Nat.add_assoc, <- from_from, F2. unfold T2.
    by rewrite from_app_plus. }
  assert (F5 : len H = len pre + 2 + len cs + 1 + len T).
  { unfold H, T2. rewrite !len_app. unfold len. simpl.
    rewrite !len_app. unfold len. simpl. lia. }
  assert (F6 : at_ (len pre + 2 + len cs + 1) H = at_ 0 T).
  { rewrite <- (Nat.add_0_r (_ + 1)), at_from, F4. done. }
  assert (F7 : at_ (len pre + 2 + len cs + 1 + 1) H = at_ 1 T).
  { rewrite at_from, F4. done. }
  assert (F8 : from (len pre + 2 + len cs + 1 + 1 + 1) H = from 2 T).
  { rewrite <- !(Nat.add_assoc (_ + len cs + 1)), <- from_from, F4. done. }
  assert (G : loop fuel H bw buf = Done (buf +:+ H)); [|done].
  destruct fuel; simpl; rewrite F1, F2, F3, F5, F6, F7, F8.
  all: destruct (_ <? _) eqn:E1; [done|]; apply Nat.ltb_ge in E1.
  all: destruct T as [|e [|q T']]; unfold len in E1; simpl in *; try lia.
  all: destruct (Ascii.eqb_spec q "?") as [->|]; simpl; [|done].
  all: by rewrite (HT _ _ eq_refl).
Qed.

(** A header with three question marks or fewer holds no encoded-word:
    the loop leaves it as it is. *)
Lemma loop_count fuel h bw buf :
  count "?" h <= 3 -> loop fuel h bw buf = Done (buf +:+ h).
Proof.
  intros Hc.
  destruct (Index h "=?") as [start|] eqn:E1; [|by apply loop_nomark].
  pose proof (at_count _ _ _ (Index2_at _ _ _ _ E1)) as C1.
  replace (S (S start)) with (start + 2) in C1 by lia.
  destruct (Index (from (start + 2) h) "?") as [i|] eqn:E2.
  2:{ destruct fuel; simpl; by rewrite E1, E2. }
  pose proof (at_count _ _ _ (Index1_at _ _ _ E2)) as C2.
  rewrite from_from in C2. replace (start + 2 + S i) with (start + 2 + i + 1) in C2 by lia.
  assert (G : at_ (start + 2 + i + 1 + 1) h = Some "?"%char ->
     Index (from (start + 2 + i + 1 + 1 + 1) h) "?=" = None).
  { intros Hq. rewrite at_from in Hq. apply at_count in Hq.
    rewrite from_from in Hq. apply count0_Index.
    replace (start + 2 + i + 1 + 1 + 1) with (start + 2 + i + 1 + 2) by lia. lia. }
  destruct fuel; simpl; rewrite E1, E2.
  all: destruct (_ <? _) eqn:EL; [done|]; apply Nat.ltb_ge in EL.
  all: destruct (at_lt (start + 2 + i + 1) h) as [e ->]; [lia|].
  all: destruct (at_lt (start + 2 + i + 1 + 1) h) as [q Hq]; [lia|].
  all: rewrite Hq; destruct (Ascii.eqb_spec q "?") as [->|]; [|done]; simpl.
  all: by rewrite (G Hq).
Qed.

Local Abbreviation builtin := (builtinCharset unicodeEqualFold).
Local Abbreviation ToLower' := (ToLower unicodeToLower).

Lemma decodeHeader_eq input :
  decodeHeader' input =
    match DecodeHeader' input with Done r => r | _ => input end.
Proof.
  unfold decodeHeader, DecodeHeader, Contains.
  by destruct (Index input "=?").
Qed.

Lemma DecodeHeader_mark pre X :
  Index pre "=?" = None ->
  DecodeHeader' (pre +:+ "=?" +:+ X)
  = loop (len (pre +:+ "=?" +:+ X)) ("=?" +:+ X) false pre.
Proof.
  intros Hpre. unfold DecodeHeader. rewrite !app_cons, app_nil_l.
  rewrite Index_app2 by done. by rewrite from_app, upto_app.
Qed.

Lemma count_app c s t : count c (s +:+ t) = count c s + count c t.
Proof.
  induction s as [|d s IH]; [done|]. rewrite app_cons. simpl. lia.
Qed.

Lemma count0_Index1 a s : count a s = 0 -> Index s (String a "") = None.
Proof.
  induction s as [|c s IH]; simpl; [done|].
  destruct (Ascii.eqb c a); simpl; [done|]. intros H%IH. by rewrite H.
Qed.

Lemma Index_None_from s sub k : Index s sub = None -> Index (from k s) sub = None.
Proof.
  revert s. induction k as [|k IH]; intros [|c s]; simpl; try done.
  intros [_ H]%Index_None_cons. by apply IH.
Qed.

(** The loop leaves a header raw when its first encoded-word has an
    encoding field that is not a recognized letter. *)
Lemma loop_bad_encoding fuel pre cs encf text post bw buf :
  Index pre "=?" = None -> count "?" cs = 0 -> count "?" encf = 0 ->
  count "?" text = 0 -> count "?" post = 0 -> recognized encf = false ->
  loop (S fuel) (pre +:+ "=?" +:+ cs +:+ "?" +:+ encf +:+ "?" +:+ text +:+ "?=" +:+ post) bw buf
  = Done (buf +:+ pre +:+ "=?" +:+ cs +:+ "?" +:+ encf +:+ "?" +:+ text +:+ "?=" +:+ post).
Proof.
  intros Hpre Hcs Hencf Htext Hpost Hrec.
  destruct encf as [|e [|e2 encf]].
  - apply loop_break; [done|by apply count0_Index1|].
    rewrite !app_nil_l, !app_cons, !app_nil_l. intros e T' HT.
    injection HT as _ HT.
    destruct text as [|t text]; simpl in *.
    + rewrite ?app_nil_l in HT. injection HT as <-.
      by apply count0_Index.
    + rewrite ?app_cons in HT. injection HT as -> _. simpl in Htext. lia.
  - pose proof (loop_word fuel pre cs e text post bw buf Hpre) as L.
    unfold word in L. str_norm_in L. str_norm.
    rewrite L; [|by apply count0_Index1|by apply count0_Index].
    assert (decode e text = None) as ->.
    { unfold decode. simpl in Hrec.
      destruct (Ascii.eqb e "B"), (Ascii.eqb e "b"), (Ascii.eqb e "Q"),
        (Ascii.eqb e "q"); done. }
    rewrite loop_count.
    + by str_norm.
    + rewrite count_app. simpl. rewrite count_app. simpl. simpl in Hencf.
      destruct (Ascii.eqb e "?"); [done|]. lia.
  - apply loop_break; [done|by apply count0_Index1|].
    rewrite !app_cons. intros e' T' HT. injection HT as _ -> _.
    simpl in Hencf. destruct (Ascii.eqb e "?"); done.
Qed.

(** ... or when the terminator of its first encoded-word is missing. *)
Lemma loop_bad_terminator fuel pre cs encf tail bw buf :
  Index pre "=?" = None -> count "?" cs = 0 -> count "?" encf = 0 ->
  Index tail "?=" = None ->
  loop fuel (pre +:+ "=?" +:+ cs +:+ "?" +:+ encf +:+ "?" +:+ tail) bw buf
  = Done (buf +:+ pre +:+ "=?" +:+ cs +:+ "?" +:+ encf +:+ "?" +:+ tail).
Proof.
  intros Hpre Hcs Hencf Htail.
  apply loop_break; [done|by apply count0_Index1|].
  intros e T' HT. destruct encf as [|e1 [|e2 encf]]; str_norm_in HT.
  - injection HT as _ HT. destruct tail as [|t tail]; [done|].
    injection HT as _ <-. by apply Index_None_cons in Htail as [_ ?].
  - by injection HT as _ <-.
  - injection HT as _ -> _. simpl in Hencf.
    destruct (Ascii.eqb e1 "?"); done.
Qed.

(** An encoded-word whose charset is unknown: either its text does not
    decode and the header is left raw, or DecodeHeader fails. *)
Lemma loop_unknown_charset fuel pre cs e text post bw buf :
  Index pre "=?" = None -> count "?" cs = 0 -> count "?" text = 0 ->
  count "?" post = 0 -> negb (Ascii.eqb e "?") = true ->
  (forall content, convert' cs content = None) ->
  let h := pre +:+ word cs e text +:+ post in
  loop (S fuel) h bw buf = Done (buf +:+ h) \/ loop (S fuel) h bw buf = Failed.
Proof.
  intros Hpre Hcs Htext Hpost He Hconv h. unfold h.
  rewrite loop_word; [|done|by apply count0_Index1|by apply count0_Index].
  destruct (decode e text) as [content|].
  - right. by rewrite Hconv.
  - left. rewrite loop_count.
    + unfold word. by str_norm.
    + str_norm. rewrite count_app. simpl. rewrite count_app. simpl.
      destruct (Ascii.eqb e "?"); [done|]. lia.
Qed.

Lemma convert_unknown cs content :
  unknownCharset unicodeEqualFold unicodeToLower newCharsetReader cs ->
  convert' cs content = None.
Proof.
  intros [Hb Hn]. unfold convert, builtinCharset in *.
  destruct (EqualFold _ "utf-8" cs); [done|].
  destruct (EqualFold _ "iso-8859-1" cs); [done|].
  destruct (EqualFold _ "us-ascii" cs); [done|].
  by rewrite Hn.
Qed.

(** Facts about all bytes, or all pairs of bytes, are checked by running
    through the 256 values. *)
Lemma byte_forall (P : ascii -> bool) :
  forallb (fun i => P (ascii_of_nat i)) (seq 0 256) = true ->
  forall c, P c = true.
Proof.
  intros H c. rewrite forallb_forall in H.
  rewrite <- (ascii_nat_embedding c). apply H, in_seq.
  pose proof (nat_ascii_bounded c). lia.
Qed.

Lemma byte_forall2 (P : ascii -> ascii -> bool) :
  forallb (fun i => forallb (fun j => P (ascii_of_nat i) (ascii_of_nat j))
                      (seq 0 256)) (seq 0 256) = true ->
  forall c d, P c d = true.
Proof.
  intros H c. apply byte_forall.
  by apply (byte_forall (fun c => forallb (fun j => P c (ascii_of_nat j)) (seq 0 256))).
Qed.

Lemma lor_ascii (sr tr : ascii) :
  (byte_of sr <? 128)%N = true -> (byte_of tr <? 128)%N = true ->
  (128 <=? N.lor (byte_of sr) (byte_of tr))%N = false.
Proof.
  intros H1 H2.
  pose proof (byte_forall2 (fun sr tr =>
    implb ((byte_of sr <? 128)%N && (byte_of tr <? 128)%N)
          (negb (128 <=? N.lor (byte_of sr) (byte_of tr))%N))) as B.
  specialize (B ltac:(vm_compute; reflexivity) sr tr). cbv beta in B.
  rewrite H1, H2 in B. simpl in B. by destruct (_ <=? _)%N.
Qed.

Lemma fold_step_nl (sr tr : ascii) :
  go_base64.isNL sr = false ->
  (if Ascii.eqb tr sr then true
   else between "A" "Z" (of_byte (N.min (byte_of sr) (byte_of tr)))
        && (N.max (byte_of sr) (byte_of tr)
            =? N.min (byte_of sr) (byte_of tr) + 32)%N) = true ->
  go_base64.isNL tr = false.
Proof.
  intros H1 H2.
  pose proof (byte_forall2 (fun sr tr =>
    implb (negb (go_base64.isNL sr) &&
      (if Ascii.eqb tr sr then true
       else between "A" "Z" (of_byte (N.min (byte_of sr) (byte_of tr)))
        && (N.max (byte_of sr) (byte_of tr)
            =? N.min (byte_of sr) (byte_of tr) + 32)%N))
      (negb (go_base64.isNL tr)))) as B.
  specialize (B ltac:(vm_compute; reflexivity) sr tr). cbv beta in B.
  rewrite H1, H2 in B. simpl in B. by destruct (go_base64.isNL tr).
Qed.

Lemma hasCRLF_cons c s :
  hasCRLF (String c s) = go_base64.isNL c || hasCRLF s.
Proof. unfold hasCRLF. simpl. by destruct (go_base64.isNL c). Qed.

(** An ASCII name that folds to an ASCII name without CR and LF has
    neither. *)
Lemma EqualFold_noCRLF k cs :
  isASCII k = true -> isASCII cs = true -> hasCRLF k = false ->
  EqualFold unicodeEqualFold k cs = true -> hasCRLF cs = false.
Proof.
  revert cs. induction k as [|sr k IH]; intros [|tr cs]; simpl; try done.
  intros [Hs Hk]%andb_prop [Ht Hcs]%andb_prop.
  rewrite !hasCRLF_cons. intros [Hn Hnk]%orb_false_elim.
  rewrite lor_ascii by done.
  intros HE. apply orb_false_intro.
  - apply (fold_step_nl sr tr Hn). destruct (Ascii.eqb tr sr); [done|].
    by destruct (_ && _).
  - apply IH; try done. destruct (Ascii.eqb tr sr); [done|].
    by destruct (_ && _).
Qed.

Lemma lowerByte_nl c : go_base64.isNL (lowerByte c) = go_base64.isNL c.
Proof.
  pose proof (byte_forall (fun c =>
    Bool.eqb (go_base64.isNL (lowerByte c)) (go_base64.isNL c))) as B.
  specialize (B ltac:(vm_compute; reflexivity) c). cbv beta in B.
  by apply Bool.eqb_prop.
Qed.

Lemma hasCRLF_lower s : hasCRLF (mapBytes lowerByte s) = hasCRLF s.
Proof.
  induction s as [|c s IH]; [done|]. simpl.
  by rewrite !hasCRLF_cons, lowerByte_nl, IH.
Qed.

(** A backend that knows no name with a CR or LF in it does not know an
    ASCII charset that has one, and mime does not handle it itself. *)
Lemma unknown_CRLF cs :
  hasCRLF cs = true -> isASCII cs = true ->
  (forall name, hasCRLF name = true -> newCharsetReader name = None) ->
  unknownCharset unicodeEqualFold unicodeToLower newCharsetReader cs.
Proof.
  intros Hc Ha Hb. split.
  - unfold builtinCharset.
    destruct (EqualFold _ "utf-8" cs) eqn:E1.
    { apply EqualFold_noCRLF in E1; [congruence|done..]. }
    destruct (EqualFold _ "iso-8859-1" cs) eqn:E2.
    { apply EqualFold_noCRLF in E2; [congruence|done..]. }
    destruct (EqualFold _ "us-ascii" cs) eqn:E3.
    { apply EqualFold_noCRLF in E3; [congruence|done..]. }
    done.
  - apply Hb. unfold ToLower. rewrite Ha. by rewrite hasCRLF_lower.
Qed.

Lemma hasCRLF_unrecognized encf : hasCRLF encf = true -> recognized encf = false.
Proof.
  destruct encf as [|e [|]]; try done. rewrite hasCRLF_cons. simpl.
  pose proof (byte_forall (fun e =>
    implb (go_base64.isNL e)
      (negb (Ascii.eqb e "B" || Ascii.eqb e "b" || Ascii.eqb e "Q" || Ascii.eqb e "q")))) as B.
  specialize (B ltac:(vm_compute; reflexivity) e). cbv beta in B.
  destruct (go_base64.isNL e); [|done]. simpl in B. intros _.
  by destruct (_ || _).
Qed.

Lemma recognized_inv encf :
  recognized encf = true ->
  exists e, encf = String e "" /\ negb (Ascii.eqb e "?") = true.
Proof.
  destruct encf as [|e [|]]; try done. simpl. intros H. exists e. split; [done|].
  destruct (Ascii.eqb_spec e "?") as [->|]; done.
Qed.

Lemma DecodeHeader_mark0 X :
  DecodeHeader' ("=?" +:+ X) = loop (len ("=?" +:+ X)) ("=?" +:+ X) false "".
Proof. exact (DecodeHeader_mark "" X eq_refl). Qed.

Lemma len_mark X : exists n, len ("=?" +:+ X) = S n.
Proof. by exists (S (len X)). Qed.

(** C2.  A single encoded-word is returned unchanged, and no error is
    signalled (decodeHeader has no error result), when its encoding field
    contains a carriage return or line feed or is not one of the two
    recognized letters, when its terminating [?=] is absent or malformed,
    when its charset is unknown to the charset backend, and when its
    charset contains a carriage return or line feed (the backend then not
    knowing it); e.g. [=?US-ASCII?Q?Keith_Moore?!]. *)
Theorem decodeHeader_rejected cs encf text term :
  count "?" cs = 0 -> count "?" encf = 0 -> count "?" text = 0 ->
  (term = "?=" /\ (hasCRLF encf = true \/ recognized encf = false))
  \/ Index (text +:+ term) "?=" = None
  \/ (term = "?=" /\
      unknownCharset unicodeEqualFold unicodeToLower newCharsetReader cs)
  \/ (term = "?=" /\ hasCRLF cs = true /\ isASCII cs = true /\
      forall name, hasCRLF name = true -> newCharsetReader name = None) ->
  decodeHeader' ("=?" +:+ cs +:+ "?" +:+ encf +:+ "?" +:+ text +:+ term)
  = "=?" +:+ cs +:+ "?" +:+ encf +:+ "?" +:+ text +:+ term.
Proof.
  intros Hcs Hencf Htext Hcase.
  assert (Hbad : recognized encf = false ->
    decodeHeader' ("=?" +:+ cs +:+ "?" +:+ encf +:+ "?" +:+ text +:+ "?=")
    = "=?" +:+ cs +:+ "?" +:+ encf +:+ "?" +:+ text +:+ "?=").
  { intros Hr. rewrite decodeHeader_eq, DecodeHeader_mark0.
    destruct (len_mark (cs +:+ "?" +:+ encf +:+ "?" +:+ text +:+ "?=")) as [n ->].
    pose proof (loop_bad_encoding n "" cs encf text "" false ""
                  eq_refl Hcs Hencf Htext eq_refl Hr) as L.
    rewrite ?app_nil_r, ?app_nil_l in L. by rewrite L. }
  assert (Hunk : unknownCharset unicodeEqualFold unicodeToLower newCharsetReader cs ->
    decodeHeader' ("=?" +:+ cs +:+ "?" +:+ encf +:+ "?" +:+ text +:+ "?=")
    = "=?" +:+ cs +:+ "?" +:+ encf +:+ "?" +:+ text +:+ "?=").
  { intros Hu. destruct (recognized encf) eqn:Hr; [|by apply Hbad].
    apply recognized_inv in Hr as (e & -> & He).
    rewrite decodeHeader_eq, DecodeHeader_mark0.
    assert (Hconv : forall c, convert' cs c = None)
      by (intros c; by apply convert_unknown).
    destruct (len_mark (cs +:+ "?" +:+ String e "" +:+ "?" +:+ text +:+ "?=")) as [n ->].
    pose proof (loop_unknown_charset n "" cs e text "" false ""
                  eq_refl Hcs Htext eq_refl He Hconv) as L.
    cbv zeta in L. unfold word in L. str_norm_in L. str_norm.
    by destruct L as [-> | ->]. }
  destruct Hcase as [[-> He] | [Hterm | [[-> Hu] | (-> & Hc & Ha & Hb)]]].
  - apply Hbad. destruct He as [He|He]; [by apply hasCRLF_unrecognized|done].
  - rewrite decodeHeader_eq, DecodeHeader_mark0.
    pose proof (loop_bad_terminator
      (len ("" +:+ "=?" +:+ cs +:+ "?" +:+ encf +:+ "?" +:+ text +:+ term))
      "" cs encf (text +:+ term) false "") as L.
    rewrite !app_nil_l in *. by rewrite L.
  - by apply Hunk.
  - by apply Hunk, unknown_CRLF.
Qed.

(** C8.  An input that does not contain [=?] is returned unchanged by
    decodeHeader and by decodeToUTF8Base64Header. *)
Theorem no_marker_unchanged input :
  Contains input "=?" = false ->
  decodeHeader' input = input /\ decodeToUTF8Base64Header' input = input.
Proof.
  intros H. unfold decodeHeader, decodeToUTF8Base64Header. by rewrite H.
Qed.

(** A header with one encoded-word, text before it and none after. *)
Lemma DecodeHeader_word pre cs e text post content d :
  Index pre "=?" = None -> count "?" cs = 0 -> count "?" text = 0 ->
  Index post "=?" = None ->
  decode e text = Some content -> convert' cs content = Some d ->
  DecodeHeader' (pre +:+ word cs e text +:+ post) = Done (pre +:+ d +:+ post).
Proof.
  intros Hpre Hcs Htext Hpost Hdec Hconv.
  unfold word at 1. rewrite !app_assoc_s. rewrite DecodeHeader_mark by done.
  match goal with |- context [len ?x] => assert (exists n, len x = S n) as [n ->] end.
  { rewrite len_app. exists (len pre + S (len (cs +:+ "?" +:+ String e ("?" +:+ text +:+ "?=") +:+ post))).
    unfold len. str_norm. simpl. lia. }
  pose proof (loop_word n "" cs e text post false pre eq_refl) as L.
  unfold word in L. str_norm_in L. str_norm.
  rewrite L; [|by apply count0_Index1|by apply count0_Index].
  rewrite Hdec, Hconv. simpl. rewrite loop_nomark by done.
  by rewrite app_assoc_s.
Qed.

(** Fuel beyond the length of the header changes nothing. *)
Lemma loop_fuel fuel1 fuel2 h bw buf :
  len h <= fuel1 -> len h <= fuel2 ->
  loop fuel1 h bw buf = loop fuel2 h bw buf.
Proof.
  revert fuel2 h bw buf.
  induction fuel1 as [|fuel1 IH]; intros [|fuel2] h bw buf H1 H2; simpl;
    repeat case_match; try done;
    try match goal with H : (_ <? _) = false |- _ => apply Nat.ltb_ge in H end;
    try lia.
  all: apply IH; rewrite len_from; lia.
Qed.

Lemma loop_word_fuel fuel pre cs enc text rest bw buf :
  Index pre "=?" = None -> Index cs "?" = None -> Index text "?=" = None ->
  len (pre +:+ word cs enc text +:+ rest) <= fuel ->
  loop fuel (pre +:+ word cs enc text +:+ rest) bw buf =
    match decode enc text with
    | None =>
        loop fuel (cs +:+ "?" +:+ String enc ("?" +:+ text +:+ "?=" +:+ rest))
          false (buf +:+ pre +:+ "=?")
    | Some content =>
        match convert' cs content with
        | None => Failed
        | Some t =>
            loop fuel rest true
              ((if (0 <? len pre) && (negb bw || hasNonWhitespace pre)
                then buf +:+ pre else buf) +:+ t)
        end
    end.
Proof.
  intros Hpre Hcs Htext Hlen.
  destruct fuel as [|fuel]; [len_solve|].
  rewrite loop_word by done.
  destruct (decode enc text).
  - destruct (convert' _ _); [|done]. apply loop_fuel; len_solve.
  - apply loop_fuel; len_solve.
Qed.

Lemma DecodeHeader_start pre cs e text rest :
  Index pre "=?" = None ->
  DecodeHeader' (pre +:+ word cs e text +:+ rest)
  = loop (len (pre +:+ word cs e text +:+ rest)) (word cs e text +:+ rest)
      false pre.
Proof.
  intros Hpre. unfold word. rewrite !app_assoc_s.
  by rewrite DecodeHeader_mark.
Qed.

Lemma loop_word_first fuel cs enc text rest buf :
  count "?" cs = 0 -> count "?" text = 0 ->
  len (word cs enc text +:+ rest) <= fuel ->
  decode enc text <> None ->
  loop fuel (word cs enc text +:+ rest) false buf =
    match decode enc text with
    | None => Failed
    | Some content =>
        match convert' cs content with
        | None => Failed
        | Some t => loop fuel rest true (buf +:+ t)
        end
    end.
Proof.
  intros Hcs Htext Hlen Hdec.
  pose proof (loop_word_fuel fuel "" cs enc text rest false buf eq_refl) as L.
  rewrite !app_nil_l in L.
  rewrite L; [|by apply count0_Index1|by apply count0_Index|done].
  by destruct (decode enc text).
Qed.

(** A header with two encoded-words: what lies between them is dropped
    when it is white space only, and kept otherwise. *)
Lemma DecodeHeader_two_words pre cs1 e1 text1 mid cs2 e2 text2 post c1 d1 c2 d2 :
  Index pre "=?" = None -> Index mid "=?" = None -> Index post "=?" = None ->
  count "?" cs1 = 0 -> count "?" text1 = 0 ->
  count "?" cs2 = 0 -> count "?" text2 = 0 ->
  decode e1 text1 = Some c1 -> convert' cs1 c1 = Some d1 ->
  decode e2 text2 = Some c2 -> convert' cs2 c2 = Some d2 ->
  DecodeHeader' (pre +:+ word cs1 e1 text1 +:+ mid +:+ word cs2 e2 text2 +:+ post)
  = Done (pre +:+ d1 +:+ (if hasNonWhitespace mid then mid else "")
              +:+ d2 +:+ post).
Proof.
  intros Hpre Hmid Hpost Hcs1 Ht1 Hcs2 Ht2 Hdec1 Hconv1 Hdec2 Hconv2.
  rewrite DecodeHeader_start by done. set (F := len _).
  rewrite loop_word_first; [|done|done|unfold F; len_solve|congruence].
  rewrite Hdec1, Hconv1.
  rewrite loop_word_fuel;
    [|done|by apply count0_Index1|by apply count0_Index|unfold F; len_solve].
  rewrite Hdec2, Hconv2. simpl. rewrite loop_nomark by done.
  f_equal. destruct mid as [|m mid].
  - simpl. by str_norm.
  - rewrite len_cons. simpl. destruct (hasNonWhitespace _); by str_norm.
Qed.

Lemma decodeHeader_Done input r :
  DecodeHeader' input = Done r -> decodeHeader' input = r.
Proof. intros H. by rewrite decodeHeader_eq, H. Qed.

Lemma LWSP_no_mark ws : all isLWSP ws = true -> Index ws "=?" = None.
Proof.
  intros H. apply count0_Index.
  induction ws as [|c ws IH]; [done|]. simpl in *.
  apply andb_prop in H as [Hc Hws]. rewrite (IH Hws).
  destruct (Ascii.eqb_spec c "=") as [->|]; done.
Qed.


Lemma qDecode_plain text :
  all qplain text = true -> qDecode text = Some (mapBytes underscoreToSpace text).
Proof.
  induction text as [|c text IH]; [done|]. simpl.
  intros [Hc Ht]%andb_prop. rewrite (IH Ht). unfold underscoreToSpace.
  destruct (Ascii.eqb c "_"); [done|]. unfold qplain in Hc.
  destruct (Ascii.eqb c "="); [by rewrite andb_false_r in Hc|].
  by destruct (between " " "~" c).
Qed.

Lemma qplain_count text : all qplain text = true -> count "?" text = 0.
Proof.
  induction text as [|c text IH]; [done|]. simpl.
  intros [Hc Ht]%andb_prop. rewrite (IH Ht). unfold qplain in Hc.
  by destruct (Ascii.eqb c "?"); [rewrite andb_false_r in Hc|].
Qed.

Lemma concatMap_ascii content :
  isASCII content = true ->
  concatMap (fun c => if (128 <=? byte_of c)%N
                      then go_utf8.EncodeRune go_utf8.ReplacementChar
                      else str1 c) content = content.
Proof.
  unfold isASCII. induction content as [|c s IH]; [done|]. simpl.
  intros [Hc Hs]%andb_prop. rewrite (IH Hs).
  apply N.ltb_lt in Hc. by destruct (N.leb_spec 128 (byte_of c)); [lia|].
Qed.

Lemma convert_usascii content :
  isASCII content = true -> convert' "US-ASCII" content = Some content.
Proof. intros H. unfold convert. simpl. by rewrite concatMap_ascii. Qed.

Lemma underscore_ascii text :
  all qplain text = true -> isASCII (mapBytes underscoreToSpace text) = true.
Proof.
  unfold isASCII. induction text as [|c text IH]; [done|]. simpl.
  intros [Hc Ht]%andb_prop. rewrite (IH Ht), andb_true_r.
  pose proof (byte_forall (fun c =>
    implb (qplain c) (byte_of (underscoreToSpace c) <? 128)%N)) as B.
  specialize (B ltac:(vm_compute; reflexivity) c). cbv beta in B.
  by rewrite Hc in B.
Qed.


(** ** decodeToUTF8Base64Header: the tokens *)

Lemma Tokens_sep_cons sep c s ts :
  sep c = true -> Tokens sep s ts -> Tokens sep (String c s) ts.
Proof.
  intros Hc [ws Hws | ws t rest ts' Hws Ht1 Ht2 Hr Hts].
  - apply Tokens_nil. simpl. by rewrite Hc.
  - change (String c (ws +:+ t +:+ rest)) with (String c ws +:+ t +:+ rest).
    apply Tokens_cons; try done. simpl. by rewrite Hc.
Qed.

Lemma fields_go_spec sep s :
  Tokens sep s (fields_go sep None s)
  /\ forall t0,
      exists t1 rest ts,
        s = t1 +:+ rest
        /\ all (fun c => negb (sep c)) t1 = true
        /\ match rest with String c _ => sep c = true | "" => True end
        /\ Tokens sep rest ts
        /\ fields_go sep (Some t0) s = (t0 +:+ t1) :: ts.
Proof.
  induction s as [|c s [IH1 IH2]].
  - split; [by apply Tokens_nil|]. intros t0. exists "", "", [].
    repeat split; rewrite ?app_nil_r; try done. by apply Tokens_nil.
  - simpl. destruct (sep c) eqn:Hc.
    + split; [by apply Tokens_sep_cons|]. intros t0.
      exists "", (String c s), (fields_go sep None s).
      repeat split; rewrite ?app_nil_r; try done. by apply Tokens_sep_cons.
    + split.
      * destruct (IH2 (str1 c)) as (t1 & rest & ts & -> & Ht1 & Hr & Hts & E).
        unfold str1 in E. rewrite app_nil_l. unfold str1. rewrite E.
        change (String c (t1 +:+ rest)) with ("" +:+ (str1 c +:+ t1) +:+ rest).
        apply Tokens_cons; try done. simpl. by rewrite Hc.
      * intros t0.
        destruct (IH2 (t0 +:+ str1 c)) as (t1 & rest & ts & -> & Ht1 & Hr & Hts & E).
        exists (String c t1), rest, ts. repeat split; try done.
        -- simpl. by rewrite Hc.
        -- rewrite E. by rewrite app_assoc_s.
Qed.

Lemma FieldsFunc_Tokens sep s : Tokens sep s (FieldsFunc s sep).
Proof. apply fields_go_spec. Qed.

Lemma lastByte_split s c :
  lastByte s = Some c -> s = upto (len s - 1) s +:+ str1 c.
Proof.
  induction s as [|d s IH]; [done|]. destruct s as [|e s].
  - simpl. by intros [= ->].
  - intros H. specialize (IH H). rewrite len_cons.
    replace (S (len (String e s)) - 1) with (S (len (String e s) - 1))
      by (rewrite len_cons; lia).
    simpl upto. rewrite app_cons. by f_equal.
Qed.

(** C3 (as the code has it).  An input with the [=?] marker is split into
    its white space delimited tokens, the tokens are re-encoded one by one
    and joined with single spaces.  A token of 4 bytes or fewer or without
    the marker is copied.  Any other token loses one leading [(] and one
    trailing [)], is decoded, and is given to mime.BEncoding.Encode, which
    returns the decoded text itself when that is printable ASCII and
    otherwise encoded-words [=?UTF-8?b?...?=]; the parentheses are put
    back. *)
Theorem reencode_tokens input :
  Contains input "=?" = true ->
  exists tokens,
    Tokens isWhiteSpaceRune input tokens
    /\ decodeToUTF8Base64Header' input = Join (reencodeToken' <$> tokens) " "
    /\ forall token,
        ((4 <? len token) && Contains token "=?" = false ->
         reencodeToken' token = token)
        /\ ((4 <? len token) && Contains token "=?" = true ->
            exists prefix core suffix,
              token = prefix +:+ core +:+ suffix
              /\ (prefix = "(" \/ prefix = "" /\ HasPrefix token "(" = false)
              /\ (suffix = ")" \/ suffix = "" /\ lastByte core <> Some ")"%char)
              /\ reencodeToken' token
                 = prefix
                   +:+ (if needsEncoding (decodeHeader' core)
                        then "=?UTF-8?b?"
                             +:+ bEncode unicodeEqualFold "UTF-8" (decodeHeader' core)
                             +:+ "?="
                        else decodeHeader' core)
                   +:+ suffix).
Proof.
  intros Hc. exists (FieldsFunc input isWhiteSpaceRune).
  split; [apply FieldsFunc_Tokens|].
  split; [unfold decodeToUTF8Base64Header; by rewrite Hc|].
  intros token. unfold reencodeToken. split; intros ->; [done|].
  set (pt := match token with String "(" rest => ("(", rest) | _ => ("", token) end).
  assert (Hp : token = pt.1 +:+ pt.2
               /\ (pt.1 = "(" \/ pt.1 = "" /\ HasPrefix token "(" = false)).
  { unfold pt. destruct token as [|c t]; [by auto|].
    destruct (Ascii.eqb_spec c "(") as [->|Hne]; [by auto|].
    assert (HasPrefix (String c t) "(" = false) as Hf.
    { simpl. by destruct (Ascii.eqb_spec c "("). }
    destruct c as [[] [] [] [] [] [] [] []]; simpl; auto. }
  destruct pt as [prefix t1]. simpl in Hp. destruct Hp as [Htok Hpre].
  destruct (lastByte t1) as [l|] eqn:El.
  - destruct (Ascii.eqb_spec l ")") as [->|Hne].
    + exists prefix, (upto (len t1 - 1) t1), ")".
      split; [by rewrite Htok at 1; rewrite (lastByte_split _ _ El) at 1|].
      split; [done|]. split; [by left|].
      unfold BEncoding_Encode, encodeWord, openWord, closeWord.
      destruct (needsEncoding _); simpl; by str_norm.
    + exists prefix, t1, "". rewrite app_nil_r.
      split; [done|]. split; [done|]. split; [right; split; congruence|].
      assert ((let '(suffix, token0) :=
                 match l with
                 | ")"%char => (")", upto (len t1 - 1) t1)
                 | _ => ("", t1)
                 end in
               prefix +:+ BEncoding_Encode unicodeEqualFold "UTF-8" (decodeHeader' token0) +:+ suffix)
              = prefix +:+ BEncoding_Encode unicodeEqualFold "UTF-8" (decodeHeader' t1) +:+ "") as ->.
      { destruct l as [[] [] [] [] [] [] [] []]; try done. }
      unfold BEncoding_Encode, encodeWord, openWord, closeWord.
      destruct (needsEncoding _); simpl; rewrite ?app_nil_r; by str_norm.
  - exists prefix, t1, "". rewrite app_nil_r.
    split; [done|]. split; [done|]. split; [right; split; congruence|].
    unfold BEncoding_Encode, encodeWord, openWord, closeWord.
    destruct (needsEncoding _); simpl; rewrite ?app_nil_r; by str_norm.
Qed.

Local Abbreviation anomalous' := (anomalous unicodeEqualFold unicodeToLower newCharsetReader).

(** decodeHeader leaves a value raw that holds, after text without [=?]
    and before text without [?], an encoded-word that does not decode. *)
Lemma decodeHeader_anomalous pre w post :
  anomalous' w -> Index pre "=?" = None -> count "?" post = 0 ->
  decodeHeader' (pre +:+ w +:+ post) = pre +:+ w +:+ post.
Proof.
  intros Hw Hpre Hpost. rewrite decodeHeader_eq.
  destruct Hw as [cs encf text Hcs Hencf Htext Hrec
                 | cs e text Hcs Htext Hrec Hdec
                 | cs e text Hcs Htext Hrec Hunk].
  - rewrite !app_assoc_s, DecodeHeader_mark by done.
    destruct (len _) as [|n] eqn:E; [exfalso; len_solve|].
    pose proof (loop_bad_encoding n "" cs encf text post false pre
                  eq_refl Hcs Hencf Htext Hpost Hrec) as L.
    rewrite !app_nil_l in L. by rewrite L.
  - rewrite DecodeHeader_start by done. set (F := len _).
    pose proof (loop_word_fuel F "" cs e text post false pre eq_refl) as L.
    rewrite !app_nil_l in L.
    rewrite L; [|by apply count0_Index1|by apply count0_Index|unfold F; len_solve].
    rewrite Hdec, loop_count.
    + unfold word. by str_norm.
    + str_norm. rewrite count_app. simpl. rewrite count_app. simpl.
      simpl in Hrec. destruct (Ascii.eqb_spec e "?") as [->|]; [done|]. lia.
  - rewrite DecodeHeader_start by done.
    destruct (len _) as [|n] eqn:E; [exfalso; len_solve|].
    assert (He : negb (Ascii.eqb e "?") = true).
    { simpl in Hrec. by destruct (Ascii.eqb_spec e "?") as [->|]. }
    pose proof (loop_unknown_charset n "" cs e text post false pre
                  eq_refl Hcs Htext Hpost He
                  (fun c => convert_unknown cs c Hunk)) as L.
    cbv zeta in L. rewrite !app_nil_l in L. by destruct L as [-> | ->].
Qed.

Lemma anomalous_shape w :
  anomalous' w -> exists X, w = "=?" +:+ X +:+ "?=" /\ 1 <= len X.
Proof.
  intros [cs encf text _ _ _ _ | cs e text _ _ _ _ | cs e text _ _ _ _].
  - exists (cs +:+ "?" +:+ encf +:+ "?" +:+ text). split; [by str_norm|]. len_solve.
  - exists (cs +:+ "?" +:+ String e ("?" +:+ text)). split; [unfold word; by str_norm|].
    len_solve.
  - exists (cs +:+ "?" +:+ String e ("?" +:+ text)). split; [unfold word; by str_norm|].
    len_solve.
Qed.

Lemma lastByte_app s c : lastByte (s +:+ str1 c) = Some c.
Proof.
  induction s as [|d s IH]; [done|]. rewrite app_cons.
  change (lastByte (String d (s +:+ str1 c)))
    with (match s +:+ str1 c with "" => Some d | _ => lastByte (s +:+ str1 c) end).
  rewrite IH. by destruct s.
Qed.

Lemma lastByte_word X : lastByte ("=?" +:+ X +:+ "?=") = Some "="%char.
Proof.
  replace ("=?" +:+ X +:+ "?=") with (("=?" +:+ X +:+ "?") +:+ str1 "=").
  - apply lastByte_app.
  - unfold str1. by str_norm.
Qed.

Lemma Contains_mark X : Contains ("=?" +:+ X) "=?" = true.
Proof. done. Qed.

(** decodeToUTF8Base64Header copies a token that is an encoded-word that
    does not decode, when the token is printable ASCII. *)
Lemma reencodeToken_anomalous w :
  anomalous' w -> needsEncoding w = false -> reencodeToken' w = w.
Proof.
  intros Hw Hn. destruct (anomalous_shape w Hw) as (X & -> & HX).
  pose proof (decodeHeader_anomalous "" _ "" Hw eq_refl eq_refl) as Hd.
  rewrite app_nil_l, app_nil_r in Hd.
  unfold reencodeToken. rewrite Contains_mark.
  replace (4 <? len _) with true by (symmetry; apply Nat.ltb_lt; len_solve).
  simpl andb. cbv iota.
  change (match "=?" +:+ X +:+ "?=" with
          | String "(" rest => ("(", rest)
          | _ => ("", "=?" +:+ X +:+ "?=")
          end) with ("", "=?" +:+ X +:+ "?="). cbv iota beta.
  rewrite lastByte_word. cbv iota beta.
  unfold BEncoding_Encode. rewrite Hd, Hn. simpl. by rewrite app_nil_r.
Qed.

(** C6 (as the code has it).  Neither function aborts: DecodeHeader
    returns a text or an error, never panics, and decodeHeader falls back
    to the raw value on an error.  decodeHeader leaves raw, in place, an
    encoded-word that does not decode and one whose terminator is missing.
    decodeToUTF8Base64Header copies such a token when it is printable
    ASCII. *)
Theorem anomalies_left_raw :
  (forall input,
      (exists r, DecodeHeader' input = Done r) \/ DecodeHeader' input = Failed)
  /\ (forall input, DecodeHeader' input = Failed -> decodeHeader' input = input)
  /\ (forall pre w post,
      anomalous' w -> Index pre "=?" = None -> count "?" post = 0 ->
      decodeHeader' (pre +:+ w +:+ post) = pre +:+ w +:+ post)
  /\ (forall pre cs encf tail,
      Index pre "=?" = None -> count "?" cs = 0 -> count "?" encf = 0 ->
      Index tail "?=" = None ->
      decodeHeader' (pre +:+ "=?" +:+ cs +:+ "?" +:+ encf +:+ "?" +:+ tail)
      = pre +:+ "=?" +:+ cs +:+ "?" +:+ encf +:+ "?" +:+ tail)
  /\ (forall w,
      anomalous' w -> needsEncoding w = false -> reencodeToken' w = w).
Proof.
  split; [apply DecodeHeader_returns|].
  split; [intros input H; by rewrite decodeHeader_eq, H|].
  split; [apply decodeHeader_anomalous|].
  split; [|apply reencodeToken_anomalous].
  intros pre cs encf tail Hpre Hcs Hencf Htail.
  rewrite decodeHeader_eq, DecodeHeader_mark by done.
  pose proof (loop_bad_terminator
    (len (pre +:+ "=?" +:+ cs +:+ "?" +:+ encf +:+ "?" +:+ tail))
    "" cs encf tail false pre eq_refl Hcs Hencf Htail) as L.
  rewrite !app_nil_l in L. by rewrite L.
Qed.

(** ** base64: decoding what was encoded *)

Lemma testbit_shiftl a n m :
  N.testbit (N.shiftl a n) m = (n <=? m)%N && N.testbit a (m - n).
Proof.
  destruct (N.leb_spec n m).
  - by rewrite N.shiftl_spec_high'.
  - by rewrite N.shiftl_spec_low.
Qed.

Lemma testbit_ones n m : N.testbit (N.ones n) m = (m <? n)%N.
Proof.
  destruct (N.ltb_spec m n).
  - by apply N.ones_spec_low.
  - by apply N.ones_spec_high.
Qed.

Lemma testbit_small a k m : (a < 2 ^ k)%N -> (k <= m)%N -> N.testbit a m = false.
Proof.
  intros Ha Hk. destruct (N.eq_dec a 0%N) as [->|Hne]; [apply N.bits_0|].
  apply N.bits_above_log2. apply N.log2_lt_pow2 in Ha; lia.
Qed.

Lemma byte_of_lt c : (byte_of c < 2 ^ 8)%N.
Proof. apply N_ascii_bounded. Qed.

Ltac bits_cases :=
  repeat match goal with
         | |- context [(?a <=? ?b)%N] => destruct (N.leb_spec a b)
         | |- context [(?a <? ?b)%N] => destruct (N.ltb_spec a b)
         end;
  simpl; rewrite ?andb_true_r, ?andb_false_r, ?orb_false_r, ?orb_false_l;
  try lia.

Lemma sextets_join val :
  (val < 2 ^ 24)%N ->
  N.lor (N.lor (N.shiftl (N.land (N.shiftr val 18) 63) 18)
               (N.shiftl (N.land (N.shiftr val 12) 63) 12))
        (N.lor (N.shiftl (N.land (N.shiftr val 6) 63) 6)
               (N.land (N.shiftr val 0) 63)) = val.
Proof.
  intros Hv. apply N.bits_inj. intros n.
  change 63%N with (N.ones 6).
  rewrite !N.lor_spec, !testbit_shiftl, !N.land_spec, !N.shiftr_spec',
    !testbit_ones.
  destruct (N.ltb_spec n 24) as [Hn|Hn].
  2:{ rewrite (testbit_small val 24 n) by done.
      rewrite !(testbit_small val 24) by lia. by rewrite ?andb_false_r. }
  bits_cases; try (f_equal; lia).
Qed.
Lemma lt_pow2_bits a k :
  (forall m, (k <= m)%N -> N.testbit a m = false) -> (a < 2 ^ k)%N.
Proof.
  intros H. destruct (N.eq_dec a 0%N) as [->|Hne].
  - apply N.neq_0_lt_0, N.pow_nonzero. done.
  - apply N.log2_lt_pow2; [lia|].
    destruct (N.lt_ge_cases (N.log2 a) k) as [|Hge]; [done|].
    specialize (H _ Hge). by rewrite N.bit_log2 in H.
Qed.

Import go_base64.

Lemma val3_lt A B C :
  (A < 2 ^ 8)%N -> (B < 2 ^ 8)%N -> (C < 2 ^ 8)%N -> (val3 A B C < 2 ^ 24)%N.
Proof.
  intros HA HB HC. apply lt_pow2_bits. intros m Hm. unfold val3.
  rewrite !N.lor_spec, !testbit_shiftl.
  rewrite (testbit_small A 8), (testbit_small B 8), (testbit_small C 8) by lia.
  by rewrite !andb_false_r.
Qed.

Lemma val3_bytes A B C :
  (A < 2 ^ 8)%N -> (B < 2 ^ 8)%N -> (C < 2 ^ 8)%N ->
  N.land (N.shiftr (val3 A B C) 16) 255 = A
  /\ N.land (N.shiftr (val3 A B C) 8) 255 = B
  /\ N.land (N.shiftr (val3 A B C) 0) 255 = C.
Proof.
  intros HA HB HC. change 255%N with (N.ones 8). unfold val3.
  repeat split; apply N.bits_inj; intros n;
    rewrite N.land_spec, N.shiftr_spec', !N.lor_spec, !testbit_shiftl,
      testbit_ones.
  - rewrite (testbit_small B 8 (n + 16 - 8)), (testbit_small C 8 (n + 16)) by lia.
    replace (n + 16 - 16)%N with n by lia.
    destruct (N.ltb_spec n 8).
    + bits_cases; done.
    + rewrite (testbit_small A 8 n) by lia. by rewrite !andb_false_r.
  - rewrite (testbit_small C 8 (n + 8)) by lia.
    replace (n + 8 - 8)%N with n by lia.
    destruct (N.ltb_spec n 8).
    + bits_cases; done.
    + rewrite (testbit_small B 8 n) by lia. by rewrite !andb_false_r.
  - rewrite N.add_0_r.
    destruct (N.ltb_spec n 8).
    + bits_cases; done.
    + rewrite (testbit_small C 8 n) by lia. by rewrite !andb_false_r.
Qed.

Lemma land63_lt x : (N.land x 63 < 64)%N.
Proof.
  change 63%N with (N.ones 6). rewrite N.land_ones.
  apply N.mod_lt. done.
Qed.

Lemma decodeMap_enc6 v : (v < 64)%N -> decodeMap (enc6 v) = Some v.
Proof.
  intros Hv.
  assert (H : forallb (fun n => match decodeMap (enc6 (N.of_nat n)) with
                                | Some w => (w =? N.of_nat n)%N
                                | None => false
                                end) (seq 0 64) = true) by by vm_compute.
  rewrite forallb_forall in H. specialize (H (N.to_nat v)).
  rewrite N2Nat.id in H.
  destruct (decodeMap (enc6 v)) as [w|].
  - f_equal. apply N.eqb_eq, H, in_seq. lia.
  - discriminate H. apply in_seq. lia.
Qed.

Lemma at_ge i s : len s <= i -> at_ i s = None.
Proof.
  revert i. induction s as [|c s IH]; intros i; [by destruct i|].
  rewrite len_cons. destruct i; [lia|]. simpl. intros. apply IH. lia.
Qed.

Lemma enc6_not_q v : Ascii.eqb (enc6 v) "?" = false.
Proof.
  destruct (N.lt_ge_cases v 64) as [Hv|Hv].
  - assert (H : forallb (fun n => negb (Ascii.eqb (enc6 (N.of_nat n)) "?"))
                  (seq 0 64) = true) by by vm_compute.
    rewrite forallb_forall in H. specialize (H (N.to_nat v)).
    rewrite N2Nat.id in H. apply negb_true_iff, H, in_seq. lia.
  - unfold enc6. rewrite at_ge; [done|].
    change (len encodeStd) with 64. lia.
Qed.

Lemma decodeLoop_value v src dbuf :
  (v < 64)%N ->
  decodeLoop (String (enc6 v) src) dbuf =
    if length (dbuf ++ [v]) =? 4
    then (fun r => quantum (dbuf ++ [v]) 4 +:+ r) <$> decodeLoop src []
    else decodeLoop src (dbuf ++ [v]).
Proof. intros Hv. cbn [decodeLoop]. by rewrite decodeMap_enc6. Qed.

Lemma decodeLoop_pad src dbuf :
  decodeLoop (String "=" src) dbuf =
    match length dbuf with
    | 0 | 1 => None
    | 2 =>
        match skipNL src with
        | String p t =>
            if Ascii.eqb p "=" then
              match skipNL t with
              | "" => Some (quantum dbuf 2)
              | _ => None
              end
            else None
        | "" => None
        end
    | _ =>
        match skipNL src with
        | "" => Some (quantum dbuf 3)
        | _ => None
        end
    end.
Proof. done. Qed.

Lemma of_byte_of c : of_byte (byte_of c) = c.
Proof. apply ascii_N_embedding. Qed.

(** The sextets of a 24-bit value. *)
Lemma quantum_val3 a b c n :
  let val := val3 (byte_of a) (byte_of b) (byte_of c) in
  quantum [N.land (N.shiftr val 18) 63; N.land (N.shiftr val 12) 63;
           N.land (N.shiftr val 6) 63; N.land (N.shiftr val 0) 63] n
  = upto (n - 1) (String a (String b (str1 c))).
Proof.
  intros val. unfold quantum. cbn [lookup list_lookup default from_option]. unfold id.
  rewrite sextets_join by (apply val3_lt; apply byte_of_lt).
  destruct (val3_bytes (byte_of a) (byte_of b) (byte_of c)
              (byte_of_lt a) (byte_of_lt b) (byte_of_lt c)) as (E0 & E1 & E2).
  fold val in E0, E1, E2. by rewrite E0, E1, E2, !of_byte_of.
Qed.

Lemma val3_low0 A B : N.land (N.shiftr (val3 A B 0) 0) 63 = 0%N.
Proof.
  apply N.bits_inj. intros n. change 63%N with (N.ones 6). unfold val3.
  rewrite N.land_spec, N.shiftr_spec', !N.lor_spec, !testbit_shiftl,
    testbit_ones, N.bits_0, N.add_0_r.
  bits_cases; done.
Qed.

Lemma val3_low6 A : N.land (N.shiftr (val3 A 0 0) 6) 63 = 0%N.
Proof.
  apply N.bits_inj. intros n. change 63%N with (N.ones 6). unfold val3.
  rewrite N.land_spec, N.shiftr_spec', !N.lor_spec, !testbit_shiftl,
    testbit_ones, !N.bits_0.
  bits_cases; done.
Qed.

Lemma enc3_4 a b c :
  enc3 a b c 4
  = let val := val3 (byte_of a) (byte_of b) (byte_of c) in
    String (enc6 (N.land (N.shiftr val 18) 63))
      (String (enc6 (N.land (N.shiftr val 12) 63))
         (String (enc6 (N.land (N.shiftr val 6) 63))
            (str1 (enc6 (N.land (N.shiftr val 0) 63))))).
Proof. done. Qed.

(** StdEncoding decodes what it encoded. *)
Lemma DecodeString_EncodeToString s :
  DecodeString (EncodeToString s) = Some s.
Proof.
  unfold DecodeString.
  assert (G : forall n s, len s <= n -> decodeLoop (EncodeToString s) [] = Some s).
  2:{ by apply (G (len s)). }
  clear s. induction n as [|n IH]; intros s Hs.
  { destruct s; [done|]. rewrite len_cons in Hs. lia. }
  destruct s as [|a [|b [|c rest]]]; [done|..].
  - (* one byte *)
    cbn [EncodeToString]. unfold enc3. cbn [upto Nat.sub]. rewrite !app_cons, app_nil_l.
    rewrite !decodeLoop_value by apply land63_lt. cbn [length app Nat.eqb].
    rewrite decodeLoop_pad. cbn [length skipNL isNL]. simpl Ascii.eqb. cbv iota.
    set (val := val3 (byte_of a) (byte_of "000") (byte_of "000")).
    replace (quantum [N.land (N.shiftr val 18) 63; N.land (N.shiftr val 12) 63] 2)
      with (quantum [N.land (N.shiftr val 18) 63; N.land (N.shiftr val 12) 63;
                     N.land (N.shiftr val 6) 63; N.land (N.shiftr val 0) 63] 2).
    + pose proof (quantum_val3 a "000" "000" 2) as Q. cbv zeta in Q.
      fold val in Q. rewrite Q. reflexivity.
    + unfold val. change (byte_of "000") with 0%N.
      by rewrite val3_low6, val3_low0.
  - (* two bytes *)
    cbn [EncodeToString]. unfold enc3. cbn [upto Nat.sub]. rewrite !app_cons, app_nil_l.
    rewrite !decodeLoop_value by apply land63_lt. cbn [length app Nat.eqb].
    rewrite decodeLoop_pad. cbn [length skipNL isNL].
    set (val := val3 (byte_of a) (byte_of b) (byte_of "000")).
    replace (quantum [N.land (N.shiftr val 18) 63; N.land (N.shiftr val 12) 63;
                      N.land (N.shiftr val 6) 63] 3)
      with (quantum [N.land (N.shiftr val 18) 63; N.land (N.shiftr val 12) 63;
                     N.land (N.shiftr val 6) 63; N.land (N.shiftr val 0) 63] 3).
    + pose proof (quantum_val3 a b "000" 3) as Q. cbv zeta in Q.
      fold val in Q. rewrite Q. reflexivity.
    + unfold val. change (byte_of "000") with 0%N.
      by rewrite val3_low0.
  - (* three bytes and more *)
    cbn [EncodeToString]. rewrite enc3_4. cbv zeta. unfold str1. str_norm.
    rewrite !decodeLoop_value by apply land63_lt. cbn [length app Nat.eqb].
    rewrite IH by (rewrite !len_cons in Hs; lia).
    by rewrite (quantum_val3 a b c 4).
Qed.

Lemma count_enc3 a b c n : count "?" (enc3 a b c n) = 0.
Proof.
  unfold enc3, str1. cbv zeta.
  destruct n as [|[|[|[|n]]]]; cbn [upto count]; rewrite ?enc6_not_q; try reflexivity. by destruct n.
Qed.

Lemma count_EncodeToString s : count "?" (EncodeToString s) = 0.
Proof.
  assert (G : forall n s, len s <= n -> count "?" (EncodeToString s) = 0).
  2:{ by apply (G (len s)). }
  clear s. induction n as [|n IH]; intros s Hs.
  { destruct s; [done|]. rewrite len_cons in Hs. lia. }
  destruct s as [|a [|b [|c rest]]]; [done|..]; cbn [EncodeToString];
    rewrite count_app, count_enc3; [done|done|].
  apply IH. rewrite !len_cons in Hs. lia.
Qed.

Lemma convert_utf8 content : convert' "UTF-8" content = Some content.
Proof. done. Qed.


(** The loop of DecodeHeader over the encoded-words that bEncode makes:
    whatever the places where the text was split, the chunks come back
    joined. *)
Lemma loop_bEncodeLoop s :
  forall skip cur chunk pre bw buf fuel,
    (pre = "" \/ bw = true /\ all isLWSP pre = true) ->
    len (pre +:+ "=?UTF-8?b?"
         +:+ bEncodeLoop "UTF-8" s skip cur chunk +:+ "?=") <= fuel ->
    loop fuel (pre +:+ "=?UTF-8?b?"
               +:+ bEncodeLoop "UTF-8" s skip cur chunk +:+ "?=") bw buf
    = Done (buf +:+ chunk +:+ s).
Proof.
  assert (W : forall chunk rest pre bw buf fuel,
    (pre = "" \/ bw = true /\ all isLWSP pre = true) ->
    len (pre +:+ word "UTF-8" "b" (EncodeToString chunk) +:+ rest) <= fuel ->
    loop fuel (pre +:+ word "UTF-8" "b" (EncodeToString chunk) +:+ rest) bw buf
    = loop fuel rest true (buf +:+ chunk)).
  { intros chunk rest pre bw buf fuel Hpre Hfuel.
    rewrite loop_word_fuel; [| |done|apply count0_Index, count_EncodeToString|done].
    2:{ destruct Hpre as [->|[_ H]]; [done|by apply LWSP_no_mark]. }
    change (decode "b" ?t) with (DecodeString t).
    rewrite DecodeString_EncodeToString, convert_utf8.
    destruct Hpre as [->|[-> H]]; [done|].
    unfold hasNonWhitespace. rewrite H. simpl. by rewrite andb_false_r. }
  induction s as [|c s IH]; intros skip cur chunk pre bw buf fuel Hpre Hfuel.
  - cbn [bEncodeLoop] in *.
    pose proof (W chunk "" pre bw buf fuel Hpre) as L. unfold word in L.
    str_norm_in L. str_norm. str_norm_in Hfuel.
    rewrite L by done. rewrite loop_nomark by done. by rewrite !app_nil_r.
  - cbn [bEncodeLoop] in *. destruct skip as [|k].
    + destruct (_ <=? _).
      * rewrite IH by done. f_equal. unfold str1. by str_norm.
      * pose proof (W chunk
          (String CR (String LF " ") +:+ "=?UTF-8?b?"
           +:+ bEncodeLoop "UTF-8" s (go_utf8.runeSize (String c s) - 1)
                 (go_utf8.runeSize (String c s)) (str1 c) +:+ "?=")
          pre bw buf fuel Hpre) as L.
        unfold word, splitWord, closeWord, openWord in *.
        str_norm_in L. str_norm. str_norm_in Hfuel.
        rewrite L by done.
        pose proof (IH (go_utf8.runeSize (String c s) - 1)
                      (go_utf8.runeSize (String c s)) (str1 c)
                      (String CR (String LF " ")) true (buf +:+ chunk) fuel) as L2.
        str_norm_in L2. rewrite L2.
        -- f_equal; unfold str1; by str_norm.
        -- by right.
        -- revert Hfuel. autorewrite with len. lia.
    + rewrite IH by done. f_equal. unfold str1. by str_norm.
Qed.

(** ** Further properties of decodeHeader and decodeToUTF8Base64Header *)

Lemma decodeHeader_B_word cs e s d :
  count "?" cs = 0 -> e = "B"%char \/ e = "b"%char ->
  convert' cs s = Some d ->
  decodeHeader' (word cs e (EncodeToString s)) = d.
Proof.
  intros Hcs He Hconv. apply decodeHeader_Done.
  pose proof (DecodeHeader_word "" cs e (EncodeToString s) "" s d
                eq_refl Hcs (count_EncodeToString s) eq_refl) as L.
  rewrite app_nil_l, !app_nil_r in L. apply L; [|done].
  destruct He as [-> | ->]; apply DecodeString_EncodeToString.
Qed.

(** X1.  A B-encoded word decodes to exactly the bytes that were base64
    encoded, read in the word's charset; the encoding letter may be in
    either case. *)
Theorem decodeHeader_base64_word cs e s d :
  count "?" cs = 0 -> e = "B"%char \/ e = "b"%char ->
  convert' cs s = Some d ->
  decodeHeader' (word cs e (EncodeToString s)) = d.
Proof. apply decodeHeader_B_word. Qed.

Lemma isUTF8_UTF8 : isUTF8 unicodeEqualFold "UTF-8" = true.
Proof. done. Qed.

Lemma decodeHeader_Encode_back d :
  needsEncoding d = true \/ Contains d "=?" = false ->
  decodeHeader' (BEncoding_Encode unicodeEqualFold "UTF-8" d) = d.
Proof.
  intros H. unfold BEncoding_Encode. destruct (needsEncoding d) eqn:Hn; simpl.
  - unfold encodeWord, bEncode. rewrite isUTF8_UTF8. simpl negb. simpl orb.
    destruct (_ <=? _).
    + apply (decodeHeader_B_word "UTF-8" "b" d d); auto.
    + apply decodeHeader_Done. unfold openWord, closeWord.
      replace ("=?" +:+ "UTF-8" +:+ "?" +:+ "b" +:+ "?")
        with ("=?" +:+ "UTF-8?b?") by done.
      rewrite app_assoc_s, DecodeHeader_mark0.
      pose proof (loop_bEncodeLoop d 0 0 "" "" false ""
        (len ("=?" +:+ "UTF-8?b?" +:+ bEncodeLoop "UTF-8" d 0 0 "" +:+ "?="))
        (or_introl eq_refl)) as L.
      str_norm_in L. str_norm. by rewrite L.
  - destruct H as [H|H]; [done|]. unfold decodeHeader. by rewrite H.
Qed.


(** ** The tokens of decodeToUTF8Base64Header *)

Lemma fields_go_sep sep ws X :
  all sep ws = true -> fields_go sep None (ws +:+ X) = fields_go sep None X.
Proof.
  induction ws as [|c ws IH]; [done|]. simpl.
  intros [Hc Hws]%andb_prop. rewrite Hc. by apply IH.
Qed.

Lemma fields_go_token sep t cur rest :
  all (fun c => negb (sep c)) t = true -> t <> "" ->
  fields_go sep cur (t +:+ rest)
  = fields_go sep (Some (default "" cur +:+ t)) rest.
Proof.
  revert cur. induction t as [|c t IH]; intros cur Ht Hne; [done|].
  simpl in Ht. apply andb_prop in Ht as [Hc Ht]. apply negb_true_iff in Hc.
  simpl. rewrite Hc. destruct t as [|d t].
  - by rewrite app_nil_l.
  - rewrite IH by done. simpl. unfold str1. by str_norm.
Qed.

(** FieldsFunc returns the white space delimited tokens, and nothing else
    is such a list of tokens. *)
Lemma FieldsFunc_unique sep s ts : Tokens sep s ts -> FieldsFunc s sep = ts.
Proof.
  unfold FieldsFunc.
  induction 1 as [ws Hws | ws t rest ts Hws Hne Ht Hrest Hts IH].
  - rewrite <- (app_nil_r ws). by rewrite fields_go_sep.
  - rewrite fields_go_sep, fields_go_token by done. simpl.
    destruct rest as [|c r]; simpl in *.
    + by rewrite <- IH.
    + rewrite Hrest in *. by rewrite <- IH.
Qed.

Lemma Contains_cons c s m :
  Contains (String c s) m = HasPrefix (String c s) m || Contains s m.
Proof.
  unfold Contains. rewrite Index_eq.
  destruct (HasPrefix _ _); [done|]. by destruct (Index s m).
Qed.

Lemma Contains_skip ws X :
  all (fun c => negb (Ascii.eqb c "=")) ws = true ->
  Contains (ws +:+ X) "=?" = Contains X "=?".
Proof.
  induction ws as [|c ws IH]; [done|]. simpl.
  intros [Hc Hws]%andb_prop. rewrite app_cons, Contains_cons, (IH Hws).
  simpl. apply negb_true_iff in Hc. by rewrite Hc.
Qed.

Lemma Contains_app_or t rest :
  match rest with String c _ => Ascii.eqb c "?" = false | "" => True end ->
  Contains (t +:+ rest) "=?" = Contains t "=?" || Contains rest "=?".
Proof.
  intros Hrest. induction t as [|c t IH]; [done|].
  rewrite app_cons, !Contains_cons, IH, orb_assoc. f_equal.
  simpl. destruct (Ascii.eqb c "="); [|done].
  destruct t as [|d t]; [|done]. rewrite app_nil_l.
  destruct rest as [|r rest]; [done|]. by rewrite Hrest.
Qed.

Lemma isWhiteSpaceRune_not c :
  isWhiteSpaceRune c = true ->
  Ascii.eqb c "=" = false /\ Ascii.eqb c "?" = false.
Proof.
  pose proof (byte_forall (fun c =>
    implb (isWhiteSpaceRune c)
      (negb (Ascii.eqb c "=") && negb (Ascii.eqb c "?")))) as B.
  specialize (B ltac:(vm_compute; reflexivity) c). cbv beta in B.
  intros H. rewrite H in B. simpl in B.
  by destruct (Ascii.eqb c "="), (Ascii.eqb c "?").
Qed.

Lemma white_no_eq ws :
  all isWhiteSpaceRune ws = true ->
  all (fun c => negb (Ascii.eqb c "=")) ws = true.
Proof.
  induction ws as [|c ws IH]; [done|]. simpl.
  intros [Hc Hws]%andb_prop. rewrite (IH Hws).
  apply isWhiteSpaceRune_not in Hc as [-> _]. done.
Qed.

(** The input holds the marker exactly when one of its tokens does: no
    occurrence of [=?] spans white space. *)
Lemma Contains_Tokens s ts :
  Tokens isWhiteSpaceRune s ts ->
  Contains s "=?" = existsb (fun t => Contains t "=?") ts.
Proof.
  induction 1 as [ws Hws | ws t rest ts Hws Hne Ht Hrest Hts IH].
  - rewrite <- (app_nil_r ws), Contains_skip by by apply white_no_eq. done.
  - rewrite Contains_skip by by apply white_no_eq.
    rewrite Contains_app_or, IH; [done|].
    destruct rest as [|c r]; [done|]. by apply isWhiteSpaceRune_not in Hrest as [_ ?].
Qed.

(** X3.  The output of decodeToUTF8Base64Header depends on an input that
    has the marker only through its white space delimited tokens: how
    many and which white space bytes separate them, and white space at
    either end, makes no difference. *)
Theorem reencode_depends_on_tokens input input' ts :
  Tokens isWhiteSpaceRune input ts -> Tokens isWhiteSpaceRune input' ts ->
  Contains input "=?" = true ->
  decodeToUTF8Base64Header' input = decodeToUTF8Base64Header' input'
  /\ decodeToUTF8Base64Header' input = Join (reencodeToken' <$> ts) " ".
Proof.
  intros H1 H2 Hc.
  assert (Hc' : Contains input' "=?" = true).
  { rewrite (Contains_Tokens _ _ H2), <- (Contains_Tokens _ _ H1). done. }
  unfold decodeToUTF8Base64Header. rewrite Hc, Hc'. simpl.
  by rewrite (FieldsFunc_unique _ _ _ H1), (FieldsFunc_unique _ _ _ H2).
Qed.

Lemma Tokens_Join ts :
  Forall isToken ts -> Tokens isWhiteSpaceRune (Join ts " ") ts.
Proof.
  induction 1 as [|t ts [Hne Ht] Hts IH]; [by apply Tokens_nil|].
  destruct ts as [|t2 ts].
  - replace (Join [t] " ") with ("" +:+ t +:+ "")
      by (by rewrite app_nil_l, app_nil_r).
    apply Tokens_cons; try done; by apply Tokens_nil.
  - change (Join (t :: t2 :: ts) " ") with ("" +:+ t +:+ " " +:+ Join (t2 :: ts) " ").
    apply Tokens_cons; try done; by apply Tokens_sep_cons.
Qed.

Lemma reencode_Join ts :
  Forall isToken ts -> existsb (fun t => Contains t "=?") ts = true ->
  decodeToUTF8Base64Header' (Join ts " ") = Join (reencodeToken' <$> ts) " ".
Proof.
  intros Hts Hm. pose proof (Tokens_Join ts Hts) as HT.
  unfold decodeToUTF8Base64Header.
  by rewrite (Contains_Tokens _ _ HT), Hm, (FieldsFunc_unique _ _ _ HT).
Qed.

(** X4.  decodeToUTF8Base64Header works token by token: on tokens joined
    by single spaces, one of which has the marker, it returns the
    re-encoded tokens joined by single spaces. *)
Theorem reencode_joined_tokens ts :
  Forall isToken ts -> existsb (fun t => Contains t "=?") ts = true ->
  decodeToUTF8Base64Header' (Join ts " ") = Join (reencodeToken' <$> ts) " ".
Proof. apply reencode_Join. Qed.

(** X5.  decodeHeader is all or nothing where the charset backend fails:
    when an encoded-word with an unknown charset follows one that decodes,
    the whole value comes back raw, the first word included, whatever
    follows the second word; cut before the second word the value would
    have been decoded. *)
Theorem decodeHeader_all_or_nothing pre cs1 e1 text1 c1 d1 mid cs2 e2 text2 c2 post :
  Index pre "=?" = None -> Index mid "=?" = None ->
  count "?" cs1 = 0 -> count "?" text1 = 0 ->
  count "?" cs2 = 0 -> count "?" text2 = 0 ->
  decode e1 text1 = Some c1 -> convert' cs1 c1 = Some d1 ->
  decode e2 text2 = Some c2 ->
  unknownCharset unicodeEqualFold unicodeToLower newCharsetReader cs2 ->
  decodeHeader' (pre +:+ word cs1 e1 text1 +:+ mid +:+ word cs2 e2 text2 +:+ post)
  = pre +:+ word cs1 e1 text1 +:+ mid +:+ word cs2 e2 text2 +:+ post
  /\ decodeHeader' (pre +:+ word cs1 e1 text1 +:+ mid) = pre +:+ d1 +:+ mid.
Proof.
  intros Hpre Hmid Hcs1 Ht1 Hcs2 Ht2 Hdec1 Hconv1 Hdec2 Hunk. split.
  - rewrite decodeHeader_eq, DecodeHeader_start by done. set (F := len _).
    rewrite loop_word_first; [|done|done|unfold F; len_solve|congruence].
    rewrite Hdec1, Hconv1.
    rewrite loop_word_fuel;
      [|done|by apply count0_Index1|by apply count0_Index|unfold F; len_solve].
    by rewrite Hdec2, (convert_unknown _ _ Hunk).
  - apply decodeHeader_Done. by eapply DecodeHeader_word.
Qed.

(** X6.  decodeToUTF8Base64Header falls back token by token: a printable
    token that is an encoded-word that does not decode is copied where it
    stands, and the tokens around it are re-encoded all the same. *)
Theorem reencode_fallback_per_token ts1 w ts2 :
  Forall isToken ts1 -> Forall isToken ts2 -> isToken w ->
  anomalous' w -> needsEncoding w = false ->
  decodeToUTF8Base64Header' (Join (ts1 ++ w :: ts2) " ")
  = Join ((reencodeToken' <$> ts1) ++ w :: (reencodeToken' <$> ts2)) " ".
Proof.
  intros H1 H2 Hw Ha Hn. rewrite reencode_Join.
  - by rewrite fmap_app, fmap_cons, reencodeToken_anomalous.
  - apply Forall_app. split; [done|]. by apply Forall_cons.
  - rewrite existsb_app. simpl.
    destruct (anomalous_shape w Ha) as (X & -> & _).
    by rewrite Contains_mark, orb_true_r.
Qed.

Lemma all_app f s t : all f (s +:+ t) = all f s && all f t.
Proof.
  induction s as [|c s IH]; [done|]. rewrite app_cons. simpl.
  by rewrite IH, andb_assoc.
Qed.

Lemma enc6_safe v : headerSafe (enc6 v) = true.
Proof.
  destruct (N.lt_ge_cases v 64) as [Hv|Hv].
  - assert (H : forallb (fun n => headerSafe (enc6 (N.of_nat n)))
                  (seq 0 64) = true) by by vm_compute.
    rewrite forallb_forall in H. specialize (H (N.to_nat v)).
    rewrite N2Nat.id in H. apply H, in_seq. lia.
  - unfold enc6. rewrite at_ge; [done|].
    change (len encodeStd) with 64. lia.
Qed.

Lemma enc3_safe a b c n : all headerSafe (enc3 a b c n) = true.
Proof.
  unfold enc3, str1. cbv zeta.
  destruct n as [|[|[|[|n]]]]; cbn [upto all]; rewrite ?enc6_safe; try reflexivity.
  by destruct n.
Qed.

Lemma EncodeToString_safe s : all headerSafe (EncodeToString s) = true.
Proof.
  assert (G : forall n s, len s <= n -> all headerSafe (EncodeToString s) = true).
  2:{ by apply (G (len s)). }
  clear s. induction n as [|n IH]; intros s Hs.
  { destruct s; [done|]. rewrite len_cons in Hs. lia. }
  destruct s as [|a [|b [|c rest]]]; [done|..]; cbn [EncodeToString];
    rewrite all_app, enc3_safe; [done|done|].
  apply IH. rewrite !len_cons in Hs. lia.
Qed.

Lemma bEncodeLoop_safe s :
  forall skip cur chunk,
    all headerSafe (bEncodeLoop "UTF-8" s skip cur chunk) = true.
Proof.
  induction s as [|c s IH]; intros skip cur chunk; cbn [bEncodeLoop].
  - apply EncodeToString_safe.
  - destruct skip; [|by apply IH]. destruct (_ <=? _); [by apply IH|].
    by rewrite !all_app, EncodeToString_safe, IH.
Qed.

Lemma Encode_safe d :
  all headerSafe (BEncoding_Encode unicodeEqualFold "UTF-8" d) = true.
Proof.
  unfold BEncoding_Encode. destruct (needsEncoding d) eqn:Hn; simpl.
  - unfold encodeWord, bEncode, openWord, closeWord.
    rewrite isUTF8_UTF8. simpl negb. simpl orb.
    destruct (_ <=? _); str_norm; cbn [all]; rewrite all_app;
      rewrite ?EncodeToString_safe, ?bEncodeLoop_safe; done.
  - unfold needsEncoding in Hn. apply negb_false_iff in Hn.
    clear -Hn. induction d as [|c d IH]; [done|]. simpl in *.
    apply andb_prop in Hn as [Hc Hd]. rewrite (IH Hd), andb_true_r.
    unfold headerSafe. destruct (between " " "~" c); [done|].
    by destruct (Ascii.eqb c TAB).
Qed.


Lemma reencodeToken_word X :
  1 <= len X ->
  reencodeToken' ("=?" +:+ X +:+ "?=")
  = BEncoding_Encode unicodeEqualFold "UTF-8" (decodeHeader' ("=?" +:+ X +:+ "?=")).
Proof.
  intros HX. unfold reencodeToken. rewrite Contains_mark.
  replace (4 <? len _) with true by (symmetry; apply Nat.ltb_lt; len_solve).
  simpl andb. cbv iota.
  change (match "=?" +:+ X +:+ "?=" with
          | String "(" rest => ("(", rest)
          | _ => ("", "=?" +:+ X +:+ "?=")
          end) with ("", "=?" +:+ X +:+ "?="). cbv iota beta.
  rewrite lastByte_word. cbv iota beta.
  by rewrite app_nil_l, app_nil_r.
Qed.



End Decoding.

(** ** MIMEError.String *)

(** C10.  The string of a MIMEError is "[E] " or "[W] ", as Severe is set
    or not, then the name, ": " and the detail; what follows the prefix
    does not depend on Severe. *)
Theorem MIMEError_String_format :
  (forall e,
      MIMEError_String e
      = (if Severe e then "[E] " else "[W] ") +:+ Name e +:+ ": " +:+ Detail e)
  /\ (forall name detail,
      from 4 (MIMEError_String (mkMIMEError name detail true))
      = from 4 (MIMEError_String (mkMIMEError name detail false))).
Proof.
  assert (G : forall e,
      MIMEError_String e
      = (if Severe e then "[E] " else "[W] ") +:+ Name e +:+ ": " +:+ Detail e).
  { intros [name detail severe]. unfold MIMEError_String, Sprintf. simpl.
    destruct severe; str_norm; by rewrite app_nil_r. }
  split; [exact G|]. intros name detail. by rewrite !G.
Qed.

(** ** readHeader *)

Lemma IndexByte_app pre c rest :
  count c pre = 0 -> IndexByte (pre +:+ String c rest) c = Some (len pre).
Proof.
  induction pre as [|d pre IH]; simpl.
  - intros _. rewrite ?app_nil_l. simpl. by rewrite Ascii.eqb_refl.
  - rewrite ?app_cons. simpl. destruct (Ascii.eqb d c); [done|].
    intros H. by rewrite (IH H).
Qed.

Lemma IndexByte_none s c : count c s = 0 -> IndexByte s c = None.
Proof.
  induction s as [|d s IH]; simpl; [done|].
  destruct (Ascii.eqb d c); [done|]. intros H. by rewrite (IH H).
Qed.

Lemma count_upto c n s : count c (upto n s) <= count c s.
Proof.
  revert s. induction n as [|n IH]; intros [|d s]; simpl; try lia.
  specialize (IH s). lia.
Qed.

Lemma upto_app_le n a b : n <= len a -> upto n (a +:+ b) = upto n a.
Proof.
  unfold len. revert n. induction a as [|c a IH]; intros [|n] H; simpl in *;
    try lia; try done.
  f_equal. apply IH. lia.
Qed.

Lemma upto_app_ge n a b : len a <= n -> upto n (a +:+ b) = a +:+ upto (n - len a) b.
Proof.
  intros H. replace n with (len a + (n - len a)) at 1 by lia.
  apply upto_app_plus.
Qed.

(** The first loop of readHeader on a block without its blank line: it
    ends with the error of ReadSlice. *)
Lemma readHeaderLines_unterminated s :
  unterminated s ->
  forall fuel size fin buf, len s <= fuel ->
  exists e r',
    readHeaderLines fuel (mkReader size s fin) buf = Some (inl e, r')
    /\ (e = fin \/ e = ErrBufferFull)
    /\ (len s < size -> e = fin /\ pending r' = "").
Proof.
  induction 1 as [tail Htail | c body rest Hc1 Hc2 Hbody Hrest IH];
    intros fuel size fin buf Hfuel.
  - assert (E : ReadSlice (mkReader size tail fin) =
      if size <=? len tail
      then (upto size tail, Some ErrBufferFull, mkReader size (from size tail) fin)
      else (tail, Some fin, mkReader size "" fin)).
    { unfold ReadSlice. cbn [bufSize pending ending]. rewrite IndexByte_none; [done|].
      pose proof (count_upto LF size tail). lia. }
    destruct fuel; simpl; rewrite E; destruct (Nat.leb_spec size (len tail));
      eexists _, _; (split; [done|]); split; auto; intros; try lia; done.
  - set (s := String c (body +:+ String LF rest)) in *.
    destruct (Nat.leb_spec size (S (len body))) as [Hbig|Hfit].
    + assert (E : ReadSlice (mkReader size s fin) =
        (upto size s, Some ErrBufferFull, mkReader size (from size s) fin)).
      { unfold ReadSlice. cbn [bufSize pending ending].
        assert (upto size s = upto size (String c body)) as ->.
        { unfold s. rewrite <- app_cons. apply upto_app_le. rewrite len_cons. lia. }
        rewrite IndexByte_none.
        - replace (size <=? len s) with true; [done|]. symmetry.
          apply Nat.leb_le. unfold s. autorewrite with len. lia.
        - pose proof (count_upto LF size (String c body)). simpl in *.
          destruct (Ascii.eqb_spec c LF); [done|]. lia. }
      destruct fuel; simpl; rewrite E; eexists _, _; (split; [done|]);
        split; auto; unfold s; autorewrite with len; intros; lia.
    + assert (E : ReadSlice (mkReader size s fin) =
        (String c (body +:+ String LF ""), None, mkReader size rest fin)).
      { unfold ReadSlice. cbn [bufSize pending ending].
        assert (upto size s = String c body +:+ upto (size - S (len body)) (String LF rest)) as ->.
        { unfold s. rewrite <- app_cons, upto_app_ge; rewrite len_cons; [done|lia]. }
        destruct (size - S (len body)) as [|k] eqn:Ek; [lia|]. simpl upto.
        rewrite IndexByte_app.
        2:{ simpl. destruct (Ascii.eqb_spec c LF); [done|]. done. }
        rewrite len_cons. unfold s. rewrite <- !app_cons.
        replace (S (len body) + 1) with (len (String c body +:+ String LF "")) by (autorewrite with len; lia).
        replace (String c body +:+ String LF rest) with ((String c body +:+ String LF "") +:+ rest) by by str_norm.
        by rewrite upto_app, from_app. }
      destruct fuel as [|fuel]; [unfold s in Hfuel; autorewrite with len in Hfuel; lia|].
      simpl. rewrite E. simpl.
      destruct (Ascii.eqb_spec c CR); [done|]. destruct (Ascii.eqb_spec c LF); [done|].
      simpl.
      destruct (IH fuel size fin (buf +:+ String c (body +:+ String LF "")))
        as (e & r' & -> & He & Hs).
      { unfold s in Hfuel. autorewrite with len in Hfuel. lia. }
      eexists _, _. split; [done|]. split; [done|]. intros Hl. apply Hs.
      unfold s in Hl. autorewrite with len in Hl. lia.
Qed.

(** C9.  When the stream ends before the blank line that closes the
    header block, readHeader returns the error of the read (the stream's
    own, or bufio's for a line longer than the buffer) and a nil header,
    and leaves the part, with its list of errors, as it was. *)
Theorem readHeader_unterminated r p :
  unterminated (pending r) ->
  exists e r',
    readHeader r p = Some (mkResult None (Some e) r' p)
    /\ (e = ending r \/ e = ErrBufferFull)
    /\ (len (pending r) < bufSize r -> e = ending r).
Proof.
  intros H. destruct r as [size s fin]. simpl in *.
  destruct (readHeaderLines_unterminated s H (len s) size fin "" (le_n _))
    as (e & r' & E & He & Hs).
  exists e, r'. unfold readHeader. simpl. rewrite E.
  split; [done|]. split; [done|]. intros Hl. by apply Hs.
Qed.

(** C1 (what the code does).  On the example block readHeader returns no
    error and a header in which X-Bad-Continuation is [line1=foo;] only:
    the line without a colon-free name is not folded into it but becomes a
    field of its own, named [line2=bar; name=value]. *)
Theorem readHeader_continuation_example :
  exists res h,
    readHeader (mkReader 4096 continuationBlock EOF) (mkPart []) = Some res
    /\ err res = None /\ header res = Some h
    /\ go_textproto.Get h "X-Bad-Continuation" = "line1=foo;"
    /\ h !! "line2=bar; name=value" = Some ["text"]
    /\ go_textproto.Get h "X-Not-Continuation" = "line1=foo;"
    /\ go_textproto.Get h "line2" = "bar"
    /\ pending (reader res) = "Part body
".
Proof.
  eexists _, _. split; [by vm_compute|]. simpl.
  split; [done|]. split; [done|]. by vm_compute.
Qed.

(** ** readHeader: the model's loops have fuel enough *)

Import go_textproto.

Lemma IndexByte_lt s c i : IndexByte s c = Some i -> i < len s.
Proof.
  revert i. induction s as [|d s IH]; intros i; simpl; [done|].
  destruct (Ascii.eqb d c).
  - intros [= <-]. unfold len. simpl. lia.
  - destruct (IndexByte s c) as [k|]; simpl; [|done].
    intros [= <-]. specialize (IH k eq_refl). unfold len in *. simpl. lia.
Qed.

Lemma readLineSlice_shorter s line s' :
  readLineSlice s = Some (line, s') -> len s' < len s.
Proof.
  unfold readLineSlice. destruct s as [|c s]; [done|].
  destruct (IndexByte (String c s) LF) as [i|] eqn:E.
  - intros [= _ <-]. apply IndexByte_lt in E. rewrite len_from. lia.
  - intros [= _ <-]. unfold len. simpl. lia.
Qed.

Lemma skipSpace_len s : len (skipSpace s).2 <= len s.
Proof.
  induction s as [|c s IH]; [done|]. simpl.
  destruct (isBlank c); [|done]. destruct (skipSpace s) as [n r].
  unfold len in *. simpl in *. lia.
Qed.

Lemma continuation_returns fuel buf s :
  len s <= fuel ->
  exists buf' s', continuation fuel buf s = Some (buf', s') /\ len s' <= len s.
Proof.
  revert buf s. induction fuel as [|fuel IH]; intros buf s Hs.
  - destruct s; [|rewrite len_cons in Hs; lia]. by eexists _, _.
  - simpl. pose proof (skipSpace_len s) as Hk.
    destruct (skipSpace s) as [n s1]. simpl in Hk.
    destruct (0 <? n); [|by eexists _, _].
    destruct (readLineSlice s1) as [[line s2]|] eqn:E; [|by eexists _, _].
    apply readLineSlice_shorter in E.
    destruct (IH (buf +:+ " " +:+ trim line) s2) as (b & s' & -> & Hl); [lia|].
    eexists _, _. split; [done|]. lia.
Qed.

Lemma readContinuedLineSlice_returns s :
  exists r s',
    readContinuedLineSlice s = Some (r, s')
    /\ match r with inl _ => True | inr _ => len s' < len s end.
Proof.
  unfold readContinuedLineSlice.
  destruct (readLineSlice s) as [[line s1]|] eqn:E; [|by eexists _, _].
  apply readLineSlice_shorter in E.
  destruct (len line =? 0); [by eexists _, _|].
  destruct (continuation_returns (len s1) (trim line) s1 (le_n _))
    as (b & s' & -> & Hl).
  simpl. eexists _, _. split; [done|]. simpl. lia.
Qed.

Lemma readMIMEHeaderLoop_returns fuel m s :
  len s <= fuel -> is_Some (readMIMEHeaderLoop fuel m s).
Proof.
  revert m s. induction fuel as [|fuel IH]; intros m s Hs;
    destruct (readContinuedLineSlice_returns s) as (r & s' & E & Hr).
  - simpl. rewrite E. destruct r as [e|kv]; [done|]. lia.
  - simpl. rewrite E. destruct r as [e|kv]; [done|].
    destruct (len kv =? 0); [done|].
    destruct (IndexByte kv ":"); [|done].
    destruct (len _ =? 0); apply IH; lia.
Qed.

Lemma readHeaderLines_returns fuel r buf :
  len (pending r) <= fuel -> is_Some (readHeaderLines fuel r buf).
Proof.
  revert r buf. induction fuel as [|fuel IH]; intros [size s fin] buf Hs;
    cbn [pending] in Hs.
  - destruct s; [|rewrite len_cons in Hs; lia]. simpl.
    unfold ReadSlice. simpl. by destruct size.
  - cbn [readHeaderLines]. unfold ReadSlice. cbn [bufSize pending ending].
    destruct (IndexByte (upto size s) LF) as [i|] eqn:E.
    2:{ by destruct (size <=? len s). }
    apply IndexByte_lt in E. rewrite len_upto in E.
    destruct (upto (i + 1) s) as [|c l] eqn:El; [done|].
    destruct (_ || _); [done|]. apply IH. cbn [pending].
    rewrite len_from. lia.
Qed.

(** ** readHeader on a block that is closed *)

Lemma ReadSlice_line size pre rest fin :
  count LF pre = 0 -> len pre < size ->
  ReadSlice (mkReader size (pre +:+ String LF rest) fin)
  = (pre +:+ String LF "", None, mkReader size rest fin).
Proof.
  intros Hpre Hfit. unfold ReadSlice. cbn [bufSize pending ending].
  rewrite upto_app_ge by lia.
  destruct (size - len pre) as [|k] eqn:Ek; [lia|]. cbn [upto].
  rewrite IndexByte_app by done.
  replace (pre +:+ String LF rest) with ((pre +:+ String LF "") +:+ rest)
    by by str_norm.
  replace (len pre + 1) with (len (pre +:+ String LF ""))
    by (autorewrite with len; lia).
  by rewrite upto_app, from_app.
Qed.

Lemma readHeaderLines_block size lines el body fin :
  Forall (isHeaderLine size) lines -> isEndLine size el ->
  forall fuel buf,
    len (concatLines lines +:+ el +:+ body) <= fuel ->
    readHeaderLines fuel (mkReader size (concatLines lines +:+ el +:+ body) fin) buf
    = Some (inr (buf +:+ concatLines lines), mkReader size body fin).
Proof.
  intros Hlines (pre & -> & Hpre & Hc & Hfit).
  induction Hlines as [|l lines (c & lb & -> & Hc1 & Hc2 & Hlb & Hl) _ IH];
    intros fuel buf Hfuel.
  - cbn [concatLines foldr] in *. rewrite app_nil_l, app_nil_r in *.
    assert (E : ReadSlice (mkReader size ((pre +:+ String LF "") +:+ body) fin)
                = (pre +:+ String LF "", None, mkReader size body fin)).
    { rewrite app_assoc_s. apply ReadSlice_line; [done|].
      revert Hfit. autorewrite with len. lia. }
    destruct fuel; cbn [readHeaderLines]; rewrite E;
      destruct Hpre as [-> | [junk ->]]; done.
  - cbn [concatLines foldr] in *. fold (concatLines lines) in *.
    rewrite (app_assoc_s (String c (lb +:+ String LF ""))) in *.
    set (rest := concatLines lines +:+ (pre +:+ String LF "") +:+ body) in *.
    assert (E : ReadSlice (mkReader size
                  (String c (lb +:+ String LF "") +:+ rest) fin)
                = (String c lb +:+ String LF "", None, mkReader size rest fin)).
    { replace (String c (lb +:+ String LF "") +:+ rest)
        with (String c lb +:+ String LF rest) by by str_norm.
      apply ReadSlice_line.
      - simpl. by destruct (Ascii.eqb_spec c LF).
      - revert Hl. autorewrite with len. lia. }
    destruct fuel as [|fuel]; [revert Hfuel; autorewrite with len; lia|].
    cbn [readHeaderLines]. rewrite E. rewrite app_cons.
    destruct (Ascii.eqb_spec c CR); [done|].
    destruct (Ascii.eqb_spec c LF); [done|]. cbn [orb].
    rewrite IH.
    + do 2 f_equal. by str_norm.
    + revert Hfuel. unfold rest. autorewrite with len. lia.
Qed.

(** X10.  On a header block that is closed by a line starting with CR or
    LF, readHeader leaves the reader at the first byte after that line (the
    start of the body), returns the header that textproto reads from the
    header lines followed by one CR LF, with textproto's error if any, and
    leaves the part as it was. *)
Theorem readHeader_terminated size lines el body fin p :
  Forall (isHeaderLine size) lines -> isEndLine size el ->
  exists h e rest,
    ReadMIMEHeader (concatLines lines +:+ String CR (String LF "")) = Some (h, e, rest)
    /\ readHeader (mkReader size (concatLines lines +:+ el +:+ body) fin) p
       = Some (mkResult (Some h) e (mkReader size body fin) p).
Proof.
  intros Hlines Hel.
  destruct (readMIMEHeaderLoop_returns
              (len (concatLines lines +:+ String CR (String LF "")))
              ∅ (concatLines lines +:+ String CR (String LF "")) (le_n _))
    as [[[h e] rest] E].
  exists h, e, rest. split; [done|].
  unfold readHeader. cbn [pending].
  rewrite (readHeaderLines_block size lines el body fin Hlines Hel) by done.
  rewrite app_nil_l. unfold str1, ReadMIMEHeader in *. by rewrite E.
Qed.

(** ** textproto: what is read from a well-formed field line *)

Lemma rev_app_spec s acc : String.rev_app s acc = String.rev s +:+ acc.
Proof.
  unfold String.rev. revert acc.
  induction s as [|c s IH]; intros acc; [done|]. simpl.
  rewrite (IH (String c acc)), (IH (String c "")). by str_norm.
Qed.

Lemma rev_cons c s : String.rev (String c s) = String.rev s +:+ str1 c.
Proof. unfold String.rev at 1. simpl. by rewrite rev_app_spec. Qed.

Lemma rev_app s t : String.rev (s +:+ t) = String.rev t +:+ String.rev s.
Proof.
  induction s as [|c s IH]; [by rewrite app_nil_l, app_nil_r|].
  by rewrite app_cons, !rev_cons, IH, app_assoc_s.
Qed.

Lemma rev_rev s : String.rev (String.rev s) = s.
Proof.
  induction s as [|c s IH]; [done|]. by rewrite rev_cons, rev_app, IH.
Qed.

Lemma trim_eq s : trim s = trimRight (trimLeft s).
Proof. done. Qed.

Lemma trimLeft_app x c y :
  isBlank c = false ->
  trimLeft (x +:+ String c y) = trimLeft x +:+ String c y.
Proof.
  intros Hc. induction x as [|d x IH]; simpl.
  - rewrite ?app_nil_l. simpl. by rewrite Hc.
  - rewrite ?app_cons. simpl. destruct (isBlank d); [done|]. by rewrite ?app_cons.
Qed.

Lemma trimRight_app a c w :
  isBlank c = false ->
  trimRight (a +:+ String c w) = a +:+ String c (trimRight w).
Proof.
  intros Hc. unfold trimRight.
  replace (a +:+ String c w) with ((a +:+ str1 c) +:+ w) by (unfold str1; by str_norm).
  rewrite rev_app, rev_app. change (String.rev (str1 c)) with (str1 c).
  unfold str1. rewrite <- app_assoc_s.
  replace ((String.rev w +:+ String c "") +:+ String.rev a)
    with (String.rev w +:+ String c (String.rev a)) by by str_norm.
  rewrite trimLeft_app by done. rewrite rev_app.
  change (String c (String.rev a)) with (str1 c +:+ String.rev a).
  rewrite rev_app, rev_rev. change (String.rev (str1 c)) with (str1 c).
  unfold str1. by str_norm.
Qed.

Lemma trimLeft_trimRight w : trimLeft (trimRight w) = trimRight (trimLeft w).
Proof.
  induction w as [|c w IH]; [done|].
  destruct (isBlank c) eqn:Hc.
  - simpl trimLeft at 2. rewrite Hc, <- IH.
    unfold trimRight at 1. rewrite rev_cons.
    destruct (trimLeft (String.rev w)) as [|d r] eqn:E.
    + assert (trimRight w = "") as Hw by (unfold trimRight; by rewrite E).
      rewrite Hw. simpl.
      assert (trimLeft (String.rev w +:+ str1 c) = "") as ->; [|done].
      clear -E Hc. induction (String.rev w) as [|e s IH]; simpl.
      * by rewrite Hc.
      * simpl in E. destruct (isBlank e); [by apply IH|done].
    + assert (isBlank d = false) as Hd.
      { clear -E. induction (String.rev w) as [|e s IH]; [done|]. simpl in E.
        destruct (isBlank e) eqn:He; [by apply IH|]. by injection E as <- _. }
      assert (trimLeft (String.rev w +:+ str1 c) = String d r +:+ str1 c) as ->.
      { clear -E Hd. induction (String.rev w) as [|e s IH]; [done|]. simpl in *.
        destruct (isBlank e) eqn:He; [by apply IH|]. by injection E as -> ->. }
      unfold trimRight. rewrite E, rev_app. change (String.rev (str1 c)) with (str1 c).
      unfold str1. rewrite app_cons, app_nil_l. simpl. by rewrite Hc.
  - rewrite <- (app_nil_l (String c w)), trimRight_app by done.
    rewrite app_nil_l. simpl. rewrite Hc.
    rewrite <- (app_nil_l (String c w)), trimRight_app by done. done.
Qed.

Lemma valid_byte c :
  validHeaderFieldByte c = true ->
  isBlank c = false /\ Ascii.eqb c LF = false /\ Ascii.eqb c CR = false
  /\ Ascii.eqb c ":" = false /\ Ascii.eqb c SP = false.
Proof.
  pose proof (byte_forall (fun c =>
    implb (validHeaderFieldByte c)
      (negb (isBlank c) && negb (Ascii.eqb c LF) && negb (Ascii.eqb c CR)
       && negb (Ascii.eqb c ":") && negb (Ascii.eqb c SP)))) as B.
  specialize (B ltac:(vm_compute; reflexivity) c). cbv beta in B.
  intros H. rewrite H in B. simpl in B.
  destruct (isBlank c), (Ascii.eqb c LF), (Ascii.eqb c CR), (Ascii.eqb c ":"),
    (Ascii.eqb c SP); done.
Qed.

Lemma valid_count k c :
  all validHeaderFieldByte k = true -> validHeaderFieldByte c = false ->
  count c k = 0.
Proof.
  intros Hk Hc. induction k as [|d k IH]; [done|]. simpl in *.
  apply andb_prop in Hk as [Hd Hk]. rewrite (IH Hk).
  destruct (Ascii.eqb_spec d c) as [->|]; [congruence|done].
Qed.

Lemma readLineSlice_crlf line rest :
  count LF line = 0 ->
  readLineSlice (line +:+ String CR (String LF rest)) = Some (line, rest).
Proof.
  intros Hl. unfold readLineSlice.
  destruct (line +:+ String CR (String LF rest)) as [|c0 s0] eqn:E0.
  { destruct line; done. }
  rewrite <- E0. clear E0.
  replace (line +:+ String CR (String LF rest))
    with ((line +:+ str1 CR) +:+ String LF rest) by (unfold str1; by str_norm).
  rewrite IndexByte_app.
  2:{ rewrite count_app. simpl. lia. }
  rewrite upto_app, from_app_plus, lastByte_app. simpl.
  rewrite len_app. unfold str1. rewrite len_cons, len_nil.
  replace (len line + 1 - 1) with (len line) by lia.
  by rewrite upto_app.
Qed.

Lemma skipSpace_none c s : isBlank c = false -> skipSpace (String c s) = (0, String c s).
Proof. intros H. simpl. by rewrite H. Qed.

Lemma trimRightSpaces_id k :
  all (fun c => negb (Ascii.eqb c SP)) k = true -> trimRightSpaces k = k.
Proof.
  induction k as [|c k IH]; [done|]. simpl.
  intros [Hc Hk]%andb_prop. rewrite (IH Hk). apply negb_true_iff in Hc.
  rewrite Hc. by destruct k.
Qed.

Lemma canonLoop_len u k : len (canonLoop u k) = len k.
Proof.
  unfold len. revert u. induction k as [|c k IH]; intros u; [done|]. simpl.
  by rewrite IH.
Qed.

Lemma valid_no_space k :
  all validHeaderFieldByte k = true ->
  all (fun c => negb (Ascii.eqb c SP)) k = true.
Proof.
  induction k as [|c k IH]; [done|]. simpl.
  intros [Hc Hk]%andb_prop. rewrite (IH Hk).
  by destruct (valid_byte c Hc) as (_ & _ & _ & _ & ->).
Qed.

(** One field line read by readContinuedLineSlice, when the next line
    does not start with a blank. *)
Lemma readContinuedLineSlice_field k w c rest :
  k <> "" -> all validHeaderFieldByte k = true ->
  count LF w = 0 -> isBlank c = false ->
  readContinuedLineSlice (renderField (k, w) +:+ String c rest)
  = Some (inr (k +:+ ":" +:+ trimRight w), String c rest).
Proof.
  intros Hne Hk Hw Hc. unfold readContinuedLineSlice, renderField. cbn [fst snd].
  replace ((k +:+ ":" +:+ w +:+ String CR (String LF "")) +:+ String c rest)
    with ((k +:+ ":" +:+ w) +:+ String CR (String LF (String c rest)))
    by by str_norm.
  rewrite readLineSlice_crlf.
  2:{ str_norm. rewrite count_app. cbn [count].
      rewrite (valid_count k LF Hk) by done. by rewrite Hw. }
  replace (len (k +:+ ":" +:+ w) =? 0) with false.
  2:{ symmetry. apply Nat.eqb_neq. destruct k; [done|].
      rewrite app_cons, len_cons. lia. }
  assert (Ht : trim (k +:+ ":" +:+ w) = k +:+ ":" +:+ trimRight w).
  { rewrite trim_eq. destruct k as [|k0 k]; [done|].
    simpl in Hk. apply andb_prop in Hk as [Hk0 _].
    destruct (valid_byte k0 Hk0) as (Hb & _).
    rewrite app_cons. simpl trimLeft. rewrite Hb, <- app_cons.
    change (":" +:+ w) with (String ":" w). by rewrite trimRight_app. }
  rewrite Ht.
  destruct (len (String c rest)) as [|n] eqn:En; [done|].
  cbn [continuation]. rewrite skipSpace_none by done. done.
Qed.

Lemma canonical_valid k :
  all validHeaderFieldByte k = true -> canonicalMIMEHeaderKey k = canonLoop true k.
Proof. intros H. unfold canonicalMIMEHeaderKey. by rewrite H. Qed.

Lemma field_starts f T :
  isField f -> exists c r, renderField f +:+ T = String c r /\ isBlank c = false.
Proof.
  destruct f as [k w]. intros (Hne & Hk & _). cbn [fst snd] in *.
  destruct k as [|k0 k]; [done|].
  simpl in Hk. apply andb_prop in Hk as [Hk0 _].
  eexists k0, _. split; [unfold renderField; cbn; by str_norm|].
  by destruct (valid_byte k0 Hk0).
Qed.

(** ReadMIMEHeader over well-formed field lines: the fields are added one
    by one, and the loop goes on with what follows them, if that does not
    start with a blank. *)
Lemma readMIMEHeaderLoop_fields fs c r :
  Forall isField fs -> isBlank c = false ->
  forall fuel m,
    len (concatLines (renderField <$> fs) +:+ String c r) <= fuel ->
    exists fuel',
      len (String c r) <= fuel'
      /\ readMIMEHeaderLoop fuel m (concatLines (renderField <$> fs) +:+ String c r)
         = readMIMEHeaderLoop fuel' (foldl addField m fs) (String c r).
Proof.
  intros Hfs Hc.
  induction Hfs as [|[k w] fs Hf Hfs IH]; intros fuel m Hfuel.
  - exists fuel. done.
  - pose proof Hf as (Hne & Hk & Hw & Hcr).
    cbn [fst snd] in *. cbn [fmap list_fmap concatLines foldr foldl] in *.
    change (foldr String.append "" (renderField <$> fs))
      with (concatLines (renderField <$> fs)) in *.
    rewrite app_assoc_s in *.
    assert (exists c' r', concatLines (renderField <$> fs) +:+ String c r = String c' r'
                          /\ isBlank c' = false) as (c' & r' & E & Hc').
    { destruct Hfs as [|f fs' Hf' _]; [by exists c, r|].
      cbn [fmap list_fmap concatLines foldr]. rewrite app_assoc_s.
      by apply field_starts. }
    assert (Hl : len (renderField (k, w)) + len (String c' r') <= fuel).
    { rewrite <- E. revert Hfuel. autorewrite with len. lia. }
    rewrite E.
    assert (Hstep : readContinuedLineSlice (renderField (k, w) +:+ String c' r')
                    = Some (inr (k +:+ ":" +:+ trimRight w), String c' r'))
      by by apply readContinuedLineSlice_field.
    destruct fuel as [|fuel].
    { exfalso. revert Hl. unfold renderField. cbn [fst snd].
      autorewrite with len. lia. }
    cbn [readMIMEHeaderLoop]. rewrite Hstep.
    replace (len (k +:+ ":" +:+ trimRight w) =? 0) with false.
    2:{ symmetry. apply Nat.eqb_neq. destruct k; [done|].
        rewrite app_cons, len_cons. lia. }
    change (":" +:+ trimRight w) with (String ":" (trimRight w)).
    rewrite IndexByte_app by (apply valid_count; done).
    rewrite upto_app, trimRightSpaces_id by by apply valid_no_space.
    replace (len (canonicalMIMEHeaderKey k) =? 0) with false.
    2:{ symmetry. apply Nat.eqb_neq. rewrite canonical_valid, canonLoop_len by done.
        destruct k; [done|]. rewrite len_cons. lia. }
    rewrite from_app_plus. cbn [from].
    rewrite trimLeft_trimRight, <- trim_eq.
    rewrite <- E. apply IH. rewrite E.
    revert Hl. unfold renderField. cbn [fst snd]. autorewrite with len. lia.
Qed.

Lemma ReadMIMEHeader_fields fs :
  Forall isField fs ->
  ReadMIMEHeader (concatLines (renderField <$> fs) +:+ String CR (String LF ""))
  = Some (foldl addField ∅ fs, None, "").
Proof.
  intros Hfs. unfold ReadMIMEHeader.
  destruct (readMIMEHeaderLoop_fields fs CR (String LF "") Hfs eq_refl _ ∅ (le_n _))
    as (fuel' & Hf & ->).
  by destruct fuel'.
Qed.

Lemma field_line size f :
  isField f -> len (renderField f) <= size -> isHeaderLine size (renderField f).
Proof.
  destruct f as [k w]. intros (Hne & Hk & Hw & Hcr) Hfit. cbn [fst snd] in *.
  destruct k as [|k0 k]; [done|]. simpl in Hk. apply andb_prop in Hk as [Hk0 Hk].
  destruct (valid_byte k0 Hk0) as (_ & H1 & H2 & _).
  exists k0, (k +:+ ":" +:+ w +:+ str1 CR).
  split; [unfold renderField, str1; cbn; by str_norm|].
  split; [by intros ->|]. split; [by intros ->|]. split; [|done].
  rewrite count_app, (valid_count k LF Hk) by done.
  change (":" +:+ w +:+ str1 CR) with (String ":" (w +:+ str1 CR)).
  cbn [count]. rewrite count_app, Hw. done.
Qed.

Lemma readHeader_fields_eq size fs body fin p :
  Forall isField fs -> Forall (fun f => len (renderField f) <= size) fs ->
  2 <= size ->
  readHeader
    (mkReader size
       (concatLines (renderField <$> fs) +:+ String CR (String LF "") +:+ body) fin) p
  = Some (mkResult (Some (foldl addField ∅ fs)) None (mkReader size body fin) p).
Proof.
  intros Hfs Hfit Hsize. unfold readHeader. cbn [pending].
  rewrite (readHeaderLines_block size (renderField <$> fs)
             (String CR (String LF "")) body fin).
  - rewrite app_nil_l. unfold str1. by rewrite ReadMIMEHeader_fields.
  - apply Forall_fmap. revert Hfit. induction Hfs as [|f fs Hf _ IH];
      intros Hfit; [done|]. inversion Hfit; subst.
    apply Forall_cons. split; [by apply field_line|by apply IH].
  - exists (String CR ""). split; [done|]. split; [right; by exists ""|].
    split; [done|]. unfold len. simpl. lia.
  - done.
Qed.


Lemma foldl_addField_lookup fs (m : gmap string (list string)) key :
  foldl addField m fs !! key
  = match valuesOf key fs with
    | [] => m !! key
    | vs => Some (default [] (m !! key) ++ vs)
    end.
Proof.
  revert m. induction fs as [|f fs IH]; intros m; [done|].
  cbn [foldl]. rewrite IH. unfold valuesOf, addField. rewrite filter_cons.
  destruct (decide (canonicalMIMEHeaderKey f.1 = key)) as [->|Hne].
  - rewrite lookup_insert_eq. cbn [fmap list_fmap default from_option id].
    destruct (_ <$> filter _ fs); [done|]. by rewrite <- app_assoc.
  - by rewrite lookup_insert_ne.
Qed.


Lemma lowerByte_valid c :
  validHeaderFieldByte (lowerByte c) = validHeaderFieldByte c.
Proof.
  pose proof (byte_forall (fun c =>
    Bool.eqb (validHeaderFieldByte (lowerByte c)) (validHeaderFieldByte c))) as B.
  specialize (B ltac:(vm_compute; reflexivity) c). cbv beta in B.
  by apply Bool.eqb_prop.
Qed.

Lemma canon_step_lower (u : bool) c :
  (if u && between "a" "z" (lowerByte c) then of_byte (byte_of (lowerByte c) - 32)
   else if negb u && between "A" "Z" (lowerByte c) then of_byte (byte_of (lowerByte c) + 32)
   else lowerByte c)
  = (if u && between "a" "z" c then of_byte (byte_of c - 32)
     else if negb u && between "A" "Z" c then of_byte (byte_of c + 32)
     else c).
Proof.
  pose proof (byte_forall (fun c =>
    forallb (fun u : bool =>
      Ascii.eqb
        (if u && between "a" "z" (lowerByte c) then of_byte (byte_of (lowerByte c) - 32)
         else if negb u && between "A" "Z" (lowerByte c) then of_byte (byte_of (lowerByte c) + 32)
         else lowerByte c)
        (if u && between "a" "z" c then of_byte (byte_of c - 32)
         else if negb u && between "A" "Z" c then of_byte (byte_of c + 32)
         else c)) [true; false])) as B.
  specialize (B ltac:(vm_compute; reflexivity) c). cbv beta in B.
  rewrite forallb_forall in B. specialize (B u).
  assert (In u [true; false]) as Hin by (destruct u; simpl; auto).
  by apply Ascii.eqb_eq, B.
Qed.

Lemma canonLoop_lower u k : canonLoop u (mapBytes lowerByte k) = canonLoop u k.
Proof.
  revert u. induction k as [|c k IH]; intros u; [done|].
  cbn [mapBytes canonLoop]. by rewrite canon_step_lower, IH.
Qed.

Lemma valid_lower k :
  all validHeaderFieldByte (mapBytes lowerByte k) = all validHeaderFieldByte k.
Proof.
  induction k as [|c k IH]; [done|]. simpl. by rewrite lowerByte_valid, IH.
Qed.

(** X13.  Get does not depend on the letter case of the name asked for:
    two names of token bytes that differ in case only give the same
    canonical key, hence the same value from any header. *)
Theorem Get_ignores_case h k1 k2 :
  all validHeaderFieldByte k1 = true ->
  mapBytes lowerByte k1 = mapBytes lowerByte k2 ->
  canonicalMIMEHeaderKey k1 = canonicalMIMEHeaderKey k2
  /\ Get h k1 = Get h k2.
Proof.
  intros Hv Hl.
  assert (Hv2 : all validHeaderFieldByte k2 = true)
    by by rewrite <- valid_lower, <- Hl, valid_lower.
  assert (E : canonicalMIMEHeaderKey k1 = canonicalMIMEHeaderKey k2).
  { rewrite !canonical_valid by done.
    by rewrite <- (canonLoop_lower _ k1), Hl, canonLoop_lower. }
  split; [done|]. unfold Get. by rewrite E.
Qed.

(** ** readHeader on a line without a colon *)

Lemma concatLines_app a b : concatLines (a ++ b) = concatLines a +:+ concatLines b.
Proof.
  unfold concatLines. induction a as [|l a IH]; [by rewrite app_nil_l|].
  simpl. by rewrite IH, app_assoc_s.
Qed.

Lemma count_rev c s : count c (String.rev s) = count c s.
Proof.
  induction s as [|d s IH]; [done|].
  rewrite rev_cons, count_app, IH. unfold str1. simpl. lia.
Qed.

Lemma count_trimLeft c s : count c (trimLeft s) <= count c s.
Proof.
  induction s as [|d s IH]; [done|]. simpl trimLeft.
  destruct (isBlank d); [|done]. simpl. lia.
Qed.

Lemma count_trim c s : count c (trim s) <= count c s.
Proof.
  unfold trim. rewrite count_rev.
  etransitivity; [apply count_trimLeft|]. rewrite count_rev. apply count_trimLeft.
Qed.

Lemma fields_lines size fs :
  Forall isField fs -> Forall (fun f => len (renderField f) <= size) fs ->
  Forall (isHeaderLine size) (renderField <$> fs).
Proof.
  intros Hfs Hfit. apply Forall_fmap. revert Hfit.
  induction Hfs as [|f fs Hf _ IH]; intros Hfit; [done|]. inversion Hfit; subst.
  apply Forall_cons. split; [by apply field_line|by apply IH].
Qed.

Lemma block_starts fs c r :
  Forall isField fs -> isBlank c = false ->
  exists c' r', concatLines (renderField <$> fs) +:+ String c r = String c' r'
                /\ isBlank c' = false.
Proof.
  intros Hfs Hc. destruct Hfs as [|f fs' Hf' _]; [by exists c, r|].
  cbn [fmap list_fmap concatLines foldr]. rewrite app_assoc_s.
  by apply field_starts.
Qed.

Lemma crlf_endLine size : 2 <= size -> isEndLine size (String CR (String LF "")).
Proof.
  intros Hsize. exists (String CR ""). split; [done|]. split; [right; by exists ""|].
  split; [done|]. unfold len. simpl. lia.
Qed.

(** The line [String c g] of the next theorem as textproto reads it. *)
Lemma readMIMEHeaderLoop_no_colon c g fs2 fuel m :
  isBlank c = false -> count LF (String c g) = 0 -> count ":" (String c g) = 0 ->
  Forall isField fs2 ->
  readMIMEHeaderLoop fuel m
    (String c g +:+ String CR (String LF "")
     +:+ concatLines (renderField <$> fs2) +:+ String CR (String LF ""))
  = Some (m, Some (ProtocolError ("malformed MIME header line: " +:+ trim (String c g))),
          concatLines (renderField <$> fs2) +:+ String CR (String LF "")).
Proof.
  intros Hc Hlf Hcol Hfs2.
  destruct (block_starts fs2 CR (String LF "") Hfs2 eq_refl) as (c' & r' & E & Hc').
  rewrite E.
  assert (Hstep : readContinuedLineSlice
                    (String c g +:+ String CR (String LF "") +:+ String c' r')
                  = Some (inr (trim (String c g)), String c' r')).
  { unfold readContinuedLineSlice.
    replace (String c g +:+ String CR (String LF "") +:+ String c' r')
      with (String c g +:+ String CR (String LF (String c' r'))) by by str_norm.
    rewrite readLineSlice_crlf by done.
    rewrite len_cons. cbn [Nat.eqb Nat.add].
    replace (len g + 1 =? 0) with false by (symmetry; apply Nat.eqb_neq; lia).
    rewrite len_cons.
    replace (len r' + 1) with (S (len r')) by lia.
    cbn [continuation]. by rewrite skipSpace_none. }
  assert (Hne : (len (trim (String c g)) =? 0) = false).
  { apply Nat.eqb_neq. rewrite trim_eq. simpl trimLeft. rewrite Hc.
    pose proof (trimRight_app "" c g Hc) as Ht. rewrite !app_nil_l in Ht.
    rewrite Ht, len_cons. lia. }
  assert (Hidx : IndexByte (trim (String c g)) ":" = None).
  { apply IndexByte_none. pose proof (count_trim ":" (String c g)). lia. }
  destruct fuel; cbn [readMIMEHeaderLoop]; by rewrite Hstep, Hne, Hidx.
Qed.


(** ** readHeader on a folded field *)

Lemma skipSpace_snd s : (skipSpace s).2 = trimLeft s.
Proof.
  induction s as [|c s IH]; [done|]. simpl.
  destruct (isBlank c); [|done]. by destruct (skipSpace s).
Qed.

Lemma skipSpace_blank b s :
  isBlank b = true -> exists n, skipSpace (String b s) = (S n, trimLeft s).
Proof.
  intros Hb. simpl. rewrite Hb. pose proof (skipSpace_snd s) as E.
  destruct (skipSpace s) as [n r]. simpl in E. subst. by exists n.
Qed.

Lemma trimLeft_idem s : trimLeft (trimLeft s) = trimLeft s.
Proof.
  induction s as [|c s IH]; [done|]. simpl.
  destruct (isBlank c) eqn:Hc; [done|]. simpl. by rewrite Hc.
Qed.

Lemma trimLeft_app_ne x y : trimLeft x <> "" -> trimLeft (x +:+ y) = trimLeft x +:+ y.
Proof.
  induction x as [|c x IH]; [done|]. rewrite app_cons. simpl.
  destruct (isBlank c); [done|]. intros _. by rewrite app_cons.
Qed.

Lemma trim_field k w :
  k <> "" -> all validHeaderFieldByte k = true ->
  trim (k +:+ ":" +:+ w) = k +:+ ":" +:+ trimRight w.
Proof.
  intros Hne Hk. rewrite trim_eq. destruct k as [|k0 k]; [done|].
  simpl in Hk. apply andb_prop in Hk as [Hk0 _].
  destruct (valid_byte k0 Hk0) as (Hb & _).
  rewrite app_cons. simpl trimLeft. rewrite Hb, <- app_cons.
  change (":" +:+ w) with (String ":" w). by rewrite trimRight_app.
Qed.

(** A field line and one continuation line, read by
    readContinuedLineSlice. *)
Lemma readContinuedLineSlice_folded k w1 b w2 c rest :
  k <> "" -> all validHeaderFieldByte k = true ->
  count LF w1 = 0 -> isBlank b = true -> count LF w2 = 0 -> isBlank c = false ->
  readContinuedLineSlice
    (renderField (k, w1) +:+ String b w2 +:+ String CR (String LF "") +:+ String c rest)
  = Some (inr (k +:+ ":" +:+ trimRight w1 +:+ " " +:+ trim (String b w2)),
          String c rest).
Proof.
  intros Hne Hk Hw1 Hb Hw2 Hc. unfold readContinuedLineSlice, renderField.
  cbn [fst snd].
  replace ((k +:+ ":" +:+ w1 +:+ String CR (String LF ""))
           +:+ String b w2 +:+ String CR (String LF "") +:+ String c rest)
    with ((k +:+ ":" +:+ w1)
          +:+ String CR (String LF (String b (w2 +:+ String CR (String LF (String c rest))))))
    by by str_norm.
  rewrite readLineSlice_crlf.
  2:{ str_norm. rewrite count_app. cbn [count].
      rewrite (valid_count k LF Hk) by done. by rewrite Hw1. }
  replace (len (k +:+ ":" +:+ w1) =? 0) with false.
  2:{ symmetry. apply Nat.eqb_neq. destruct k; [done|].
      rewrite app_cons, len_cons. lia. }
  rewrite trim_field by done.
  rewrite len_cons.
  replace (len (w2 +:+ String CR (String LF (String c rest))) + 1)
    with (S (len (w2 +:+ String CR (String LF (String c rest))))) by lia.
  cbn [continuation].
  destruct (skipSpace_blank b (w2 +:+ String CR (String LF (String c rest))) Hb)
    as (n & ->).
  cbn [Nat.ltb Nat.leb].
  rewrite (trimLeft_app w2 CR) by done.
  rewrite readLineSlice_crlf.
  2:{ pose proof (count_trimLeft LF w2). lia. }
  assert (Et : trim (trimLeft w2) = trim (String b w2)).
  { rewrite !trim_eq, trimLeft_idem. simpl trimLeft. by rewrite Hb. }
  rewrite Et.
  destruct (len (w2 +:+ String CR (String LF (String c rest)))) as [|fuel] eqn:Ef.
  { revert Ef. autorewrite with len. lia. }
  destruct fuel; cbn [continuation]; rewrite skipSpace_none by done;
    cbn [Nat.ltb Nat.leb mbind option_bind]; do 3 f_equal; by str_norm.
Qed.


(** ** MIMEError.String read back *)

Lemma MIMEError_String_eq e :
  MIMEError_String e
  = (if Severe e then "[E] " else "[W] ") +:+ Name e +:+ ": " +:+ Detail e.
Proof.
  destruct e as [name detail severe]. unfold MIMEError_String, Sprintf. simpl.
  destruct severe; str_norm; by rewrite app_nil_r.
Qed.

Lemma app_split_at c a b x y :
  count c a = 0 -> count c b = 0 ->
  a +:+ String c x = b +:+ String c y -> a = b /\ x = y.
Proof.
  revert b. induction a as [|d a IH]; intros [|e b] Ha Hb E;
    rewrite ?app_cons, ?app_nil_l in E.
  - by injection E.
  - injection E as <- _. simpl in Hb. rewrite Ascii.eqb_refl in Hb. lia.
  - injection E as -> _. simpl in Ha. rewrite Ascii.eqb_refl in Ha. lia.
  - injection E as -> E. simpl in Ha, Hb.
    destruct (Ascii.eqb e c); [lia|].
    destruct (IH b Ha Hb E) as [-> ->]. done.
Qed.

(** X16.  The string of a MIMEError tells the severity, and for errors
    whose names hold no colon it tells the name and the detail as well: two
    such errors with the same string are the same error. *)
Theorem MIMEError_String_injective e1 e2 :
  count ":" (Name e1) = 0 -> count ":" (Name e2) = 0 ->
  MIMEError_String e1 = MIMEError_String e2 -> e1 = e2.
Proof.
  intros H1 H2. rewrite !MIMEError_String_eq.
  destruct e1 as [n1 d1 s1], e2 as [n2 d2 s2]. cbn [Name Detail Severe] in *.
  intros E.
  assert (Es : s1 = s2).
  { destruct s1, s2; try done; rewrite !app_cons in E; by injection E. }
  subst s2.
  assert (E' : n1 +:+ String ":" (String " " d1) = n2 +:+ String ":" (String " " d2)).
  { destruct s1; rewrite !app_cons, !app_nil_l in E; by injection E. }
  destruct (app_split_at ":" n1 n2 _ _ H1 H2 E') as [-> Ed].
  by injection Ed as ->.
Qed.

(** ** The theorems at concrete inputs *)

(** A charset backend that knows no charset, and Unicode functions that
    are never reached on ASCII input. *)
Definition noCharset : string -> option (string -> option string) :=
  fun _ => None.
Definition noFold : string -> string -> bool := fun _ _ => false.
Definition idLower : string -> string := fun s => s.

Lemma decodeHeader_rejected_witness :
  decodeHeader noFold idLower noCharset "=?US-ASCII?Q?Keith_Moore?!"
  = "=?US-ASCII?Q?Keith_Moore?!".
Proof.
  apply (decodeHeader_rejected noFold idLower noCharset
           "US-ASCII" "Q" "Keith_Moore" "?!"); [reflexivity..|].
  right. left. reflexivity.
Defined.

Lemma no_marker_unchanged_witness :
  decodeHeader noFold idLower noCharset "Testing One two 3 4"
  = "Testing One two 3 4"
  /\ decodeToUTF8Base64Header noFold idLower noCharset "Testing One two 3 4"
     = "Testing One two 3 4".
Proof.
  apply (no_marker_unchanged noFold idLower noCharset "Testing One two 3 4").
  reflexivity.
Defined.



(** A stream that ends in the middle of its second header line. *)
Definition cutStream : Reader := mkReader 64 "From: x
To: y" EOF.

Lemma readHeader_unterminated_witness :
  exists e r',
    readHeader cutStream (mkPart []) = Some (mkResult None (Some e) r' (mkPart []))
    /\ (e = ending cutStream \/ e = ErrBufferFull)
    /\ (len (pending cutStream) < bufSize cutStream -> e = ending cutStream).
Proof.
  apply (readHeader_unterminated cutStream (mkPart [])).
  apply (unterminated_line "F" "rom: x" "To: y");
    [discriminate | discriminate | reflexivity |].
  apply unterminated_tail. reflexivity.
Defined.

(** C3 as stated fails: a token whose decoded text is printable ASCII is
    not replaced by an encoded-word. *)
Lemma reencode_plain_counterexample :
  ~ exists body,
      decodeToUTF8Base64Header noFold idLower noCharset "=?US-ASCII?Q?Keith_Moore?="
      = "=?UTF-8?b?" +:+ body +:+ "?=".
Proof. intros [body H]. vm_compute in H. discriminate H. Qed.

Lemma reencode_tokens_witness :
  exists tokens,
    Tokens isWhiteSpaceRune "=?UTF-8?Q?Miros=C5=82aw?= <u@h>" tokens
    /\ decodeToUTF8Base64Header noFold idLower noCharset "=?UTF-8?Q?Miros=C5=82aw?= <u@h>"
       = Join (reencodeToken noFold idLower noCharset <$> tokens) " "
    /\ forall token,
        ((4 <? len token) && Contains token "=?" = false ->
         reencodeToken noFold idLower noCharset token = token)
        /\ ((4 <? len token) && Contains token "=?" = true ->
            exists prefix core suffix,
              token = prefix +:+ core +:+ suffix
              /\ (prefix = "(" \/ prefix = "" /\ HasPrefix token "(" = false)
              /\ (suffix = ")" \/ suffix = "" /\ lastByte core <> Some ")"%char)
              /\ reencodeToken noFold idLower noCharset token
                 = prefix
                   +:+ (if needsEncoding (decodeHeader noFold idLower noCharset core)
                        then "=?UTF-8?b?"
                             +:+ bEncode noFold "UTF-8"
                                   (decodeHeader noFold idLower noCharset core)
                             +:+ "?="
                        else decodeHeader noFold idLower noCharset core)
                   +:+ suffix).
Proof.
  apply (reencode_tokens noFold idLower noCharset "=?UTF-8?Q?Miros=C5=82aw?= <u@h>").
  reflexivity.
Defined.

(** A token with a raw byte sequence outside ASCII in an encoded-word whose
    encoding letter is not recognized. *)
Definition rawToken : string := "=?US-ASCII?X?caf" +:+ String "195" (String "169" "?=").

(** C6 as stated fails for decodeToUTF8Base64Header: this token is an
    encoded-word that does not decode, and it is not copied raw but wrapped,
    bytes and all, in a base64 encoded-word. *)
Lemma rawToken_counterexample :
  anomalous noFold idLower noCharset rawToken
  /\ decodeToUTF8Base64Header noFold idLower noCharset rawToken <> rawToken
  /\ decodeToUTF8Base64Header noFold idLower noCharset rawToken
     = "=?UTF-8?b?PT9VUy1BU0NJST9YP2NhZsOpPz0=?=".
Proof.
  split; [|split; [by vm_compute|by vm_compute]].
  apply (anomalous_encoding noFold idLower noCharset "US-ASCII" "X"
           ("caf" +:+ String "195" (String "169" ""))); reflexivity.
Qed.

Lemma anomalies_left_raw_witness :
  decodeHeader noFold idLower noCharset
    ("(" +:+ ("=?" +:+ "US-ASCII" +:+ "?" +:+ "X" +:+ "?" +:+ "Keith_Moore" +:+ "?=") +:+ ")")
  = "(" +:+ ("=?" +:+ "US-ASCII" +:+ "?" +:+ "X" +:+ "?" +:+ "Keith_Moore" +:+ "?=") +:+ ")".
Proof.
  apply (proj1 (proj2 (proj2 (anomalies_left_raw noFold idLower noCharset)))
           "(" _ ")"); [|reflexivity|reflexivity].
  apply anomalous_encoding; reflexivity.
Defined.

(** *** Decoding and encoding back *)

Lemma decodeHeader_base64_word_witness :
  decodeHeader noFold idLower noCharset
    (word "UTF-8" "B" (go_base64.EncodeToString "Keith Moore"))
  = "Keith Moore".
Proof.
  apply (decodeHeader_base64_word noFold idLower noCharset
           "UTF-8" "B"%char "Keith Moore" "Keith Moore");
    [reflexivity | left; reflexivity | reflexivity].
Defined.


Lemma reencode_depends_on_tokens_witness :
  decodeToUTF8Base64Header noFold idLower noCharset "a   =?US-ASCII?Q?b?="
  = decodeToUTF8Base64Header noFold idLower noCharset "a =?US-ASCII?Q?b?= "
  /\ decodeToUTF8Base64Header noFold idLower noCharset "a   =?US-ASCII?Q?b?="
     = Join (reencodeToken noFold idLower noCharset <$> ["a"; "=?US-ASCII?Q?b?="]) " ".
Proof.
  apply (reencode_depends_on_tokens noFold idLower noCharset
           "a   =?US-ASCII?Q?b?=" "a =?US-ASCII?Q?b?= " ["a"; "=?US-ASCII?Q?b?="]).
  - apply (FieldsFunc_Tokens isWhiteSpaceRune "a   =?US-ASCII?Q?b?=").
  - apply (FieldsFunc_Tokens isWhiteSpaceRune "a =?US-ASCII?Q?b?= ").
  - reflexivity.
Defined.

Lemma reencode_joined_tokens_witness :
  decodeToUTF8Base64Header noFold idLower noCharset
    (Join ["a"; "=?US-ASCII?Q?b?="] " ")
  = Join (reencodeToken noFold idLower noCharset <$> ["a"; "=?US-ASCII?Q?b?="]) " ".
Proof.
  apply (reencode_joined_tokens noFold idLower noCharset ["a"; "=?US-ASCII?Q?b?="]).
  - repeat constructor; discriminate.
  - reflexivity.
Defined.

Lemma decodeHeader_all_or_nothing_witness :
  decodeHeader noFold idLower noCharset
    ("" +:+ word "US-ASCII" "Q" "a" +:+ " x " +:+ word "KOI8-R" "Q" "b" +:+ "")
  = "" +:+ word "US-ASCII" "Q" "a" +:+ " x " +:+ word "KOI8-R" "Q" "b" +:+ ""
  /\ decodeHeader noFold idLower noCharset ("" +:+ word "US-ASCII" "Q" "a" +:+ " x ")
     = "" +:+ "a" +:+ " x ".
Proof.
  apply (decodeHeader_all_or_nothing noFold idLower noCharset
           "" "US-ASCII" "Q"%char "a" "a" "a" " x " "KOI8-R" "Q"%char "b" "b" "");
    try reflexivity.
  split; reflexivity.
Defined.

Lemma reencode_fallback_per_token_witness :
  decodeToUTF8Base64Header noFold idLower noCharset
    (Join (["a"] ++ "=?US-ASCII?X?b?=" :: ["=?US-ASCII?Q?c?="]) " ")
  = Join ((reencodeToken noFold idLower noCharset <$> ["a"])
          ++ "=?US-ASCII?X?b?="
          :: (reencodeToken noFold idLower noCharset <$> ["=?US-ASCII?Q?c?="])) " ".
Proof.
  apply (reencode_fallback_per_token noFold idLower noCharset
           ["a"] "=?US-ASCII?X?b?=" ["=?US-ASCII?Q?c?="]).
  - repeat constructor; discriminate.
  - repeat constructor; discriminate.
  - split; [discriminate|reflexivity].
  - apply (anomalous_encoding noFold idLower noCharset "US-ASCII" "X" "b");
      reflexivity.
  - reflexivity.
Defined.



(** *** readHeader *)

Lemma readHeader_terminated_witness :
  exists h e rest,
    go_textproto.ReadMIMEHeader
      (concatLines [renderField ("From", " x")] +:+ String CR (String LF ""))
    = Some (h, e, rest)
    /\ readHeader
         (mkReader 64
            (concatLines [renderField ("From", " x")] +:+ String LF "" +:+ "body") EOF)
         (mkPart [])
       = Some (mkResult (Some h) e (mkReader 64 "body" EOF) (mkPart [])).
Proof.
  apply (readHeader_terminated 64 [renderField ("From", " x")] (String LF "")
           "body" EOF (mkPart [])).
  - repeat constructor.
    exists "F"%char, ("rom: x" +:+ String CR "").
    repeat split; [discriminate | discriminate | vm_compute; lia].
  - exists "". repeat split; [by left | vm_compute; lia].
Defined.



Lemma Get_ignores_case_witness :
  go_textproto.canonicalMIMEHeaderKey "content-TYPE"
  = go_textproto.canonicalMIMEHeaderKey "Content-Type"
  /\ go_textproto.Get (addField ∅ ("Content-Type", " text/plain")) "content-TYPE"
     = go_textproto.Get (addField ∅ ("Content-Type", " text/plain")) "Content-Type".
Proof.
  apply (Get_ignores_case (addField ∅ ("Content-Type", " text/plain"))
           "content-TYPE" "Content-Type"); reflexivity.
Defined.



(** *** MIMEError.String *)

Lemma MIMEError_String_injective_witness :
  mkMIMEError "Boundary Missing" "a: b" true
  = mkMIMEError "Boundary Missing" "a: b" true.
Proof.
  apply (MIMEError_String_injective
           (mkMIMEError "Boundary Missing" "a: b" true)
           (mkMIMEError "Boundary Missing" "a: b" true)); reflexivity.
Defined.
